(** * The PIP AI stream relay ([apps/api/stream.py]) in Rocq

    A shallow embedding of [StreamManager]: the Redis stream log it writes
    to and reads from, the registry [active_streams], the two publishers,
    the three SSE generators and the HTTP handlers wrapped around them,
    followed by the properties of the relay that hold (or fail) on this
    code. *)

From Stdlib Require Import Ascii.
From stdpp Require Import gmap strings list fin_maps sorting.

Open Scope string_scope.
Open Scope list_scope.

(** ** Redis stream ids and entries

    Redis names a stream entry [<ms>-<seq>] and orders entries by the
    pair.  The code never looks inside an id: it hands back to [xread]
    whatever id it last received; the literal ["0"] it starts from is the
    id [0-0], below every id Redis generates. *)

Definition entry_id : Type := N * N.

Definition id_ltb (a b : entry_id) : bool :=
  (a.1 <? b.1)%N || ((a.1 =? b.1)%N && (a.2 <? b.2)%N).

Definition id_lt (a b : entry_id) : Prop := id_ltb a b = true.

Definition id_le (a b : entry_id) : Prop := a = b ∨ id_lt a b.

#[global] Instance id_lt_dec (a b : entry_id) : Decision (id_lt a b).
Proof. unfold id_lt. apply _. Defined.

(** The sentinel ["0"]. *)
Definition id0 : entry_id := (0%N, 0%N).

(** A Python [dict] with string keys and values, as Redis returns it with
    [decode_responses=True]. *)
Abbreviation fields := (gmap string string).

(** [event_data.get(k, d)] *)
Definition get_or (d : fields) (k dflt : string) : string :=
  default dflt (d !! k).

Definition entry : Type := entry_id * fields.

(** The Redis server: stream key to entries, oldest first. *)
Abbreviation redis_log := (gmap string (list entry)).

Definition stream_of (log : redis_log) (key : string) : list entry :=
  default [] (log !! key).

Definition last_id_of (l : list entry) : entry_id :=
  match last l with Some e => e.1 | None => id0 end.

(** The id Redis gives to an entry added with id [*] when its clock
    reads [now_ms]. *)
Definition next_id (now_ms : N) (l : list entry) : entry_id :=
  let top := last_id_of l in
  if (top.1 <? now_ms)%N then (now_ms, 0%N) else (top.1, (top.2 + 1)%N).

(** [MAXLEN ~ n], which is what redis-py sends for [xadd(..., maxlen=n)],
    its [approximate] being true unless the caller says otherwise, and no
    caller here does.  The server drops oldest entries by whole nodes of
    its own storage and never goes below [n] entries; how many entries
    that makes depends on how it has packed the stream.  [evicted] is
    the number it would drop, and at most the surplus over [n] goes. *)
Definition trim (maxlen evicted : nat) (l : list entry) : list entry :=
  drop (evicted `min` (length l - maxlen)) l.

(** [XADD key [MAXLEN ~ maxlen] * field value ...] *)
Definition xadd (key : string) (data : fields) (maxlen : option nat)
    (now_ms : N) (evicted : nat) (log : redis_log) : redis_log :=
  let l := stream_of log key in
  let l' := l ++ [(next_id now_ms l, data)] in
  <[key := match maxlen with Some n => trim n evicted l' | None => l' end]>
    log.

(** [XREAD COUNT count STREAMS key ... id ...]: for each requested stream,
    in the order of the request, at most [count] entries above the given
    id; a stream with nothing new is left out of the reply. *)
Definition newer (cur : entry_id) (l : list entry) : list entry :=
  filter (λ e : entry, id_lt cur e.1) l.

Definition xread (log : redis_log) (req : list (string * entry_id))
    (count : nat) : list (string * list entry) :=
  omap (λ '(key, cur),
          match take count (newer cur (stream_of log key)) with
          | [] => None
          | msgs => Some (key, msgs)
          end) req.

(** Every stream of the log carries strictly increasing ids. *)
Definition sorted_ids (l : list entry) : Prop :=
  StronglySorted id_lt (l.*1).

Definition log_wf (log : redis_log) : Prop :=
  ∀ key l, log !! key = Some l → sorted_ids l.

(** ** Stream configuration *)

Definition STREAM_KEYS : list (string * string) :=
  [ ("workflow_progress", "pip-ai:workflow:progress");
    ("file_analysis", "pip-ai:analysis:progress");
    ("ai_processing", "pip-ai:ai:progress");
    ("notifications", "pip-ai:notifications") ].

(** A Python [dict] whose order of insertion matters, as a list of pairs:
    [d[k]], and [d[k] = v], which overwrites in place or appends. *)
Fixpoint alist_get {V} (k : string) (d : list (string * V)) : option V :=
  match d with
  | [] => None
  | (k', v) :: d' => if decide (k' = k) then Some v else alist_get k d'
  end.

Fixpoint alist_set {V} (k : string) (v : V) (d : list (string * V))
    : list (string * V) :=
  match d with
  | [] => [(k, v)]
  | (k', v') :: d' =>
      if decide (k' = k) then (k, v) :: d' else (k', v') :: alist_set k v d'
  end.

(** [STREAM_KEYS[name]] *)
Definition STREAM_KEYS_at (name : string) : string :=
  default "" (alist_get name STREAM_KEYS).

(** ** Server-sent events

    [_format_sse_message] builds the text
    [event: <type>\ndata: <json>\n\n]; the relay is followed here on the
    two parts the text is made of, and [wire] gives the text for a given
    [json.dumps]. *)

Record sse := Sse { sse_event : string; sse_data : fields }.

#[global] Instance sse_eq_dec : EqDecision sse.
Proof. solve_decision. Defined.

Definition _format_sse_message (event_type : string) (data : fields) : sse :=
  Sse event_type data.

Definition newline : string := String (Ascii.ascii_of_nat 10) "".

Definition wire (json_dumps : fields → string) (m : sse) : string :=
  "event: " +:+ sse_event m +:+ newline +:+
  "data: " +:+ json_dumps (sse_data m) +:+ newline +:+ newline.

(** ** The manager *)

(** [redis_client] and [temporal_client] are [Optional]: [false] stands
    for [None]. *)
Record StreamManager := {
  redis_client : bool;
  temporal_client : bool;
  active_streams : gmap string bool;
}.

Definition with_active_streams (a : gmap string bool) (m : StreamManager)
    : StreamManager :=
  {| redis_client := redis_client m;
     temporal_client := temporal_client m;
     active_streams := a |}.

(** [self.active_streams[stream_id] = False] *)
Definition stop_stream (stream_id : string) (m : StreamManager)
    : StreamManager :=
  with_active_streams (<[stream_id := false]> (active_streams m)) m.

(** [self.active_streams.get(key, False)] *)
Definition is_active (m : StreamManager) (key : string) : bool :=
  default false (active_streams m !! key).

(** ** Publishers *)

(** What the [xadd] call does: Redis stores the entry, its clock reading
    [now_ms], and would drop [evicted] old entries; or the call raises. *)
Inductive xadd_outcome :=
| XaddOk (now_ms : N) (evicted : nat)
| XaddRaises.

Definition publish_workflow_progress (workflow_id : string) (data : fields)
    (ts : string) (o : xadd_outcome) (m : StreamManager) (log : redis_log)
    : redis_log :=
  if negb (redis_client m) then log
  else
    let stream_data : fields :=
      data ∪ {[ "workflow_id" := workflow_id;
                "timestamp" := ts;
                "event_type" := "workflow_progress" ]} in
    match o with
    | XaddOk now_ms evicted =>
        xadd (STREAM_KEYS_at "workflow_progress") stream_data (Some 1000)
          now_ms evicted log
    | XaddRaises => log
    end.

Definition publish_analysis_progress (file_id : string) (data : fields)
    (ts : string) (o : xadd_outcome) (m : StreamManager) (log : redis_log)
    : redis_log :=
  if negb (redis_client m) then log
  else
    let stream_data : fields :=
      data ∪ {[ "file_id" := file_id;
                "timestamp" := ts;
                "event_type" := "analysis_progress" ]} in
    match o with
    | XaddOk now_ms evicted =>
        xadd (STREAM_KEYS_at "file_analysis") stream_data (Some 1000)
          now_ms evicted log
    | XaddRaises => log
    end.

(** [POST /stream/publish/workflow/{workflow_id}] and
    [POST /stream/publish/analysis/{file_id}]: the log afterwards and the
    response body. *)
Definition publish_workflow_event (workflow_id : string) (data : fields)
    (ts : string) (o : xadd_outcome) (m : StreamManager) (log : redis_log)
    : redis_log * fields :=
  (publish_workflow_progress workflow_id data ts o m log,
   {[ "status" := "published"; "workflow_id" := workflow_id ]}).

Definition publish_analysis_event (file_id : string) (data : fields)
    (ts : string) (o : xadd_outcome) (m : StreamManager) (log : redis_log)
    : redis_log * fields :=
  (publish_analysis_progress file_id data ts o m log,
   {[ "status" := "published"; "file_id" := file_id ]}).

(** [GET /stream/health] *)
Record health := {
  h_status : string;
  h_redis : string;
  h_temporal : string;
  h_active_streams : nat;
  h_timestamp : string;
}.

Definition stream_health (ts : string) (m : StreamManager) : health :=
  let redis_status :=
    if redis_client m then "healthy" else "disconnected" in
  let temporal_status :=
    if temporal_client m then "healthy" else "disconnected" in
  {| h_status :=
       if bool_decide (redis_status = "healthy")
          && bool_decide (temporal_status = "healthy")
       then "healthy" else "degraded";
     h_redis := redis_status;
     h_temporal := temporal_status;
     h_active_streams := size (active_streams m);
     h_timestamp := ts |}.

(** ** The three generators

    [stream_workflow_events], [stream_file_analysis] and
    [stream_global_events] are one text written three times; [kind] says
    which, and the functions below give, for each, the places where the
    three differ. *)

Inductive kind := Workflow | File | Global.

#[global] Instance kind_eq_dec : EqDecision kind.
Proof. solve_decision. Defined.

(** The key under which the generator sits in [active_streams]: the
    workflow or file id itself, or [user:<user_id>:events]. *)
Definition registry_key (k : kind) (arg : string) : string :=
  match k with
  | Workflow | File => arg
  | Global => "user:" +:+ arg +:+ ":events"
  end.

(** The Redis stream a workflow or file generator reads. *)
Definition stream_key (k : kind) (arg : string) : string :=
  match k with
  | Workflow => arg +:+ ":progress"
  | File => arg +:+ ":analysis"
  | Global => ""
  end.

Definition id_field (k : kind) : string :=
  match k with
  | Workflow => "workflow_id"
  | File => "file_id"
  | Global => "user_id"
  end.

Definition default_event (k : kind) : string :=
  match k with
  | Workflow => "progress"
  | File => "analysis"
  | Global => "notification"
  end.

Definition read_count (k : kind) : nat :=
  match k with
  | Workflow | File => 10
  | Global => 5
  end.

(** The local [last_id] of the workflow and file generators, the local
    dict [last_ids] of the global one. *)
Inductive cursor :=
| Single (last_id : entry_id)
| Multi (last_ids : list (string * entry_id)).

Definition initial_cursor (k : kind) : cursor :=
  match k with
  | Workflow | File => Single id0
  | Global => Multi ((λ p, (p.2, id0)) <$> STREAM_KEYS)
  end.

(** The first argument of [xread]: [{stream_key: last_id}], or [last_ids]. *)
Definition request (k : kind) (arg : string) (c : cursor)
    : list (string * entry_id) :=
  match c with
  | Single last_id => [(stream_key k arg, last_id)]
  | Multi last_ids => last_ids
  end.

(** [last_id = message_id], or [last_ids[stream_name] = message_id]. *)
Definition advance (c : cursor) (stream_name : string)
    (message_id : entry_id) : cursor :=
  match c with
  | Single _ => Single message_id
  | Multi last_ids => Multi (alist_set stream_name message_id last_ids)
  end.

Definition _is_user_event (event_data : fields) (user_id : string) : bool :=
  bool_decide (event_data !! "user_id" = Some user_id)
  || String.prefix ("user:" +:+ user_id +:+ ":")
       (get_or event_data "workflow_id" "")
  || String.prefix ("user:" +:+ user_id +:+ ":")
       (get_or event_data "file_id" "").

(** What the body of the inner [for] yields for one entry: always a
    message in the workflow and file generators, a message only for the
    user's own events in the global one. *)
Definition entry_message (k : kind) (arg : string) (e : entry)
    : option sse :=
  let event_data := e.2 in
  match k with
  | Workflow | File =>
      Some (_format_sse_message
              (get_or event_data "event_type" (default_event k)) event_data)
  | Global =>
      if _is_user_event event_data arg
      then Some (_format_sse_message
                   (get_or event_data "event_type" (default_event k))
                   event_data)
      else None
  end.

(** What a generator does, in order: the messages it yields and the calls
    it makes.  [Entry name e m] is one turn of the inner [for]: the cursor
    is set to the id of [e], then [m], if any, is yielded. *)
Inductive effect :=
| Emit (m : sse)
| Entry (stream_name : string) (e : entry) (m : option sse)
| Read (req : list (string * entry_id))
| Query (workflow_id : string)
| Sleep.

Definition yielded (ef : effect) : option sse :=
  match ef with
  | Emit m => Some m
  | Entry _ _ m => m
  | _ => None
  end.

(** [for message_id, fields in messages: ...] *)
Fixpoint consume_messages (k : kind) (arg : string) (stream_name : string)
    (messages : list entry) (c : cursor) : cursor * list effect :=
  match messages with
  | [] => (c, [])
  | e :: rest =>
      let c1 := advance c stream_name e.1 in
      let '(c2, tr) := consume_messages k arg stream_name rest c1 in
      (c2, Entry stream_name e (entry_message k arg e) :: tr)
  end.

(** [for stream_name, messages in streams: ...] *)
Fixpoint consume_streams (k : kind) (arg : string)
    (streams : list (string * list entry)) (c : cursor)
    : cursor * list effect :=
  match streams with
  | [] => (c, [])
  | (stream_name, messages) :: rest =>
      let '(c1, tr1) := consume_messages k arg stream_name messages c in
      let '(c2, tr2) := consume_streams k arg rest c1 in
      (c2, tr1 ++ tr2)
  end.

(** A generator between two resumptions: suspended inside its [while]
    loop, or finished. *)
Inductive pc := InLoop | Exhausted.

#[global] Instance pc_eq_dec : EqDecision pc.
Proof. solve_decision. Defined.

Record gen := {
  g_kind : kind;
  g_arg : string;
  g_cursor : cursor;
  g_pc : pc;
  g_trace : list effect;
}.

(** Everything the generator has yielded so far. *)
Definition output (g : gen) : list sse := omap yielded (g_trace g).

(** What the awaited calls of one loop turn do. *)
Inductive read_outcome :=
| ReadOk
| ReadConnectionError
| ReadRaises (msg : string).

Inductive query_outcome :=
| QStatus (status : string)
| QNotFound
| QUnsupported
| QRaises (msg : string).

Definition connected_msg (k : kind) (arg ts : string) : sse :=
  _format_sse_message "connected" {[ id_field k := arg; "timestamp" := ts ]}.

Definition disconnected_msg (k : kind) (arg ts : string) : sse :=
  _format_sse_message "disconnected"
    {[ id_field k := arg; "timestamp" := ts ]}.

Definition not_connected_msg : sse :=
  _format_sse_message "error" {[ "message" := "Redis not connected" ]}.

(** The [error] message of the two [except] clauses; only the workflow
    generator stamps it. *)
Definition error_msg (k : kind) (msg ts : string) : sse :=
  _format_sse_message "error"
    match k with
    | Workflow => {[ "message" := msg; "timestamp" := ts ]}
    | File | Global => {[ "message" := msg ]}
    end.

(** From the first resumption to the first turn of the loop: the guard on
    [redis_client], the registration, [connected]. *)
Definition start (k : kind) (arg ts : string) (m : StreamManager)
    : StreamManager * gen :=
  if negb (redis_client m) then
    (m, {| g_kind := k; g_arg := arg; g_cursor := initial_cursor k;
           g_pc := Exhausted; g_trace := [Emit not_connected_msg] |})
  else
    (with_active_streams (<[registry_key k arg := true]> (active_streams m)) m,
     {| g_kind := k; g_arg := arg; g_cursor := initial_cursor k;
        g_pc := InLoop; g_trace := [Emit (connected_msg k arg ts)] |}).

Definition stream_workflow_events (workflow_id : string) :=
  start Workflow workflow_id.
Definition stream_file_analysis (file_id : string) := start File file_id.
Definition stream_global_events (user_id : string) := start Global user_id.

(** The [finally] clause. *)
Definition finalize (k : kind) (arg ts : string) (m : StreamManager)
    : StreamManager * list effect :=
  (with_active_streams (delete (registry_key k arg) (active_streams m)) m,
   [Emit (disconnected_msg k arg ts)]).

(** [if self.temporal_client: ...] of the workflow generator. *)
Definition temporal_status (k : kind) (arg ts : string) (q : query_outcome)
    (m : StreamManager) : list effect :=
  match k with
  | Workflow =>
      if temporal_client m then
        Query arg ::
        match q with
        | QStatus status =>
            [Emit (_format_sse_message "temporal_status"
                     {[ "workflow_id" := arg; "status" := status;
                        "timestamp" := ts ]})]
        | QNotFound | QUnsupported | QRaises _ => []
        end
      else []
  | File | Global => []
  end.

(** One resumption of a generator suspended in its loop, from the test
    of the [while] to the next test: the test fails and the [finally]
    clause runs, or the body runs once, [r] and [q] saying what [xread]
    and the status query do. *)
Definition loop_turn (ts : string) (r : read_outcome) (q : query_outcome)
    (log : redis_log) (m : StreamManager) (g : gen) : StreamManager * gen :=
  let k := g_kind g in
  let arg := g_arg g in
  let upd c p tr :=
    {| g_kind := k; g_arg := arg; g_cursor := c; g_pc := p;
       g_trace := g_trace g ++ tr |} in
  if is_active m (registry_key k arg) then
    let req := request k arg (g_cursor g) in
    match r with
    | ReadOk =>
        let '(c, tr) :=
          consume_streams k arg (xread log req (read_count k)) (g_cursor g) in
        (m, upd c InLoop
              (Read req :: tr ++ temporal_status k arg ts q m ++ [Sleep]))
    | ReadConnectionError =>
        let '(m', fin) := finalize k arg ts m in
        (m', upd (g_cursor g) Exhausted
               (Read req :: Emit (error_msg k "Redis connection lost" ts)
                  :: fin))
    | ReadRaises msg =>
        (m, upd (g_cursor g) InLoop [Read req; Emit (error_msg k msg ts)])
    end
  else
    let '(m', fin) := finalize k arg ts m in
    (m', upd (g_cursor g) Exhausted fin).

(** The handler around a generator: every message goes to the client,
    and after each one the handler asks whether the client is gone; if
    so it calls [stop_stream] and leaves the loop.  [gone] holds the
    answers, one per message. *)
Fixpoint event_generator (gone : list bool) (msgs : list sse) : list sse :=
  match msgs with
  | [] => []
  | m :: rest =>
      m :: match gone with
           | true :: _ => []
           | false :: gone' => event_generator gone' rest
           | [] => event_generator [] rest
           end
  end.

(** ** The relay and its clients

    One manager, one Redis server, the generators of the clients
    attached so far.  The actors move one at a time: a publish request,
    another Redis client adding an entry (the workers that write the
    per-workflow and per-file streams), a client attaching, a generator
    resumed for one turn of its loop, a call of [stop_stream].

    A turn is taken as one move.  Between the test of the [while] and
    the next one a generator looks at the registry only in that test and
    in its [finally] clause, at Redis only in its one [xread], and
    otherwise works on its own locals; whatever the other tasks do while
    it is suspended inside the turn has the effect it would have just
    before or just after the turn. *)

Record world := {
  w_mgr : StreamManager;
  w_log : redis_log;
  w_gens : list gen;
}.

Inductive action :=
| PublishWorkflow (workflow_id : string) (data : fields) (ts : string)
    (o : xadd_outcome)
| PublishAnalysis (file_id : string) (data : fields) (ts : string)
    (o : xadd_outcome)
| Xadd (key : string) (data : fields) (now_ms : N)
| Attach (k : kind) (arg : string) (ts : string)
| Resume (i : nat) (ts : string) (r : read_outcome) (q : query_outcome)
| Stop (stream_id : string).

Definition step (w : world) (a : action) : world :=
  match a with
  | PublishWorkflow workflow_id data ts o =>
      {| w_mgr := w_mgr w;
         w_log := publish_workflow_progress workflow_id data ts o
                    (w_mgr w) (w_log w);
         w_gens := w_gens w |}
  | PublishAnalysis file_id data ts o =>
      {| w_mgr := w_mgr w;
         w_log := publish_analysis_progress file_id data ts o
                    (w_mgr w) (w_log w);
         w_gens := w_gens w |}
  | Xadd key data now_ms =>
      {| w_mgr := w_mgr w;
         w_log := xadd key data None now_ms 0 (w_log w);
         w_gens := w_gens w |}
  | Attach k arg ts =>
      let mg := start k arg ts (w_mgr w) in
      {| w_mgr := mg.1; w_log := w_log w; w_gens := w_gens w ++ [mg.2] |}
  | Resume i ts r q =>
      match w_gens w !! i with
      | Some g =>
          match g_pc g with
          | InLoop =>
              let mg := loop_turn ts r q (w_log w) (w_mgr w) g in
              {| w_mgr := mg.1; w_log := w_log w;
                 w_gens := <[i := mg.2]> (w_gens w) |}
          | Exhausted => w
          end
      | None => w
      end
  | Stop stream_id =>
      {| w_mgr := stop_stream stream_id (w_mgr w);
         w_log := w_log w;
         w_gens := w_gens w |}
  end.

Definition run (w : world) (acts : list action) : world := foldl step w acts.

(** The process after start-up: the two clients present or not, no
    stream registered, an empty Redis. *)
Definition boot (redis temporal : bool) : world :=
  {| w_mgr := {| redis_client := redis; temporal_client := temporal;
                 active_streams := ∅ |};
     w_log := ∅;
     w_gens := [] |}.

(** Where a run may start: nobody attached yet, Redis holding whatever
    well-formed streams earlier processes left. *)
Definition initial (w : world) : Prop :=
  w_gens w = [] ∧ log_wf (w_log w).

Definition reachable (w : world) : Prop :=
  ∃ w0 acts, initial w0 ∧ w = run w0 acts.

(** ** Observations on a generator *)

(** The cursor a generator holds for a stream, if it reads that stream. *)
Definition cursor_at (g : gen) (chan : string) : option entry_id :=
  alist_get chan (request (g_kind g) (g_arg g) (g_cursor g)).

(** The ids of the entries of [chan] that went through the inner [for]
    (yielded or not), and of those that were yielded. *)
Definition consumed (chan : string) (tr : list effect) : list entry_id :=
  omap (λ ef, match ef with
              | Entry name e _ =>
                  if decide (name = chan) then Some e.1 else None
              | _ => None
              end) tr.

Definition delivered (chan : string) (tr : list effect) : list entry_id :=
  omap (λ ef, match ef with
              | Entry name e (Some _) =>
                  if decide (name = chan) then Some e.1 else None
              | _ => None
              end) tr.

Definition is_read (ef : effect) : bool :=
  match ef with Read _ => true | _ => false end.

Definition is_query (ef : effect) : bool :=
  match ef with Query _ => true | _ => false end.

(** The entries that went through the inner [for], in order. *)
Definition handled (tr : list effect) : list entry :=
  omap (λ ef, match ef with Entry _ e _ => Some e | _ => None end) tr.

Definition is_entry (ef : effect) : bool :=
  match ef with Entry _ _ _ => true | _ => false end.

Definition count_reads (tr : list effect) : nat :=
  length (List.filter is_read tr).

Definition count_queries (tr : list effect) : nat :=
  length (List.filter is_query tr).

(** All entries of an [xread] reply, in the order the loops visit them,
    and the messages a generator yields for them. *)
Definition reply_entries (streams : list (string * list entry))
    : list entry :=
  streams ≫= snd.

Definition entry_messages (k : kind) (arg : string) (es : list entry)
    : list sse :=
  omap (entry_message k arg) es.


(** What holds of every generator of a run: it reads the streams it
    started with; on every stream the ids of the entries it went through
    increase strictly, and its cursor for the stream is the id of the
    last of them; the message recorded with an entry is the one
    [entry_message] gives. *)
Definition entry_as_coded (k : kind) (arg : string) (ef : effect) : Prop :=
  match ef with
  | Entry _ e m => m = entry_message k arg e
  | _ => True
  end.

Record gen_inv (g : gen) : Prop := {
  inv_keys :
    (request (g_kind g) (g_arg g) (g_cursor g)).*1
    = (request (g_kind g) (g_arg g) (initial_cursor (g_kind g))).*1;
  inv_sorted : ∀ chan, StronglySorted id_lt (consumed chan (g_trace g));
  inv_cursor : ∀ chan i,
    last (consumed chan (g_trace g)) = Some i → cursor_at g chan = Some i;
  inv_entries : Forall (entry_as_coded (g_kind g) (g_arg g)) (g_trace g);
}.

(** From [g] to [g']: the trace grows, no cursor goes back, and every
    entry gone through in between lies above the cursor [g] held for its
    stream. *)
Definition moves_forward (g g' : gen) : Prop :=
  ∃ new, g_trace g' = g_trace g ++ new
    ∧ ∀ chan cur, cursor_at g chan = Some cur →
        ∃ cur', cursor_at g' chan = Some cur'
          ∧ id_le cur cur'
          ∧ Forall (id_lt cur) (consumed chan new).

(** The manager with no Redis client. *)
Definition without_redis (m : StreamManager) : StreamManager :=
  {| redis_client := false;
     temporal_client := temporal_client m;
     active_streams := active_streams m |}.

(** ** Start-up ([StreamManager.initialize])

    What the awaited calls of [initialize] do: [redis.from_url], [ping]
    and [TemporalClient.connect] succeed or raise. *)
Record init_env := {
  ie_from_url : bool;
  ie_ping : bool;
  ie_connect : bool;
}.

(** The manager afterwards, and whether [initialize] returned ([true]) or
    re-raised the exception it logged ([false]). *)
Definition initialize (upstash_redis_rest_url : string) (env : init_env)
    (m : StreamManager) : StreamManager * bool :=
  let after_url :=
    if bool_decide (upstash_redis_rest_url ≠ "") then
      if ie_from_url env
      then Some {| redis_client := true;
                   temporal_client := temporal_client m;
                   active_streams := active_streams m |}
      else None
    else Some m in
  match after_url with
  | None => (m, false)
  | Some m1 =>
      if redis_client m1 && negb (ie_ping env) then (m1, false)
      else if ie_connect env
      then ({| redis_client := redis_client m1;
               temporal_client := true;
               active_streams := active_streams m1 |}, true)
      else (m1, false)
  end.

(** ** The handlers with their registry effect

    [event_generator] of the three stream endpoints, on the messages the
    generator would yield: what goes to the client, and whether the
    handler called [stop_stream] (the client was found gone). *)
Fixpoint event_generator_stops (gone : list bool) (msgs : list sse) : bool :=
  match msgs with
  | [] => false
  | m :: rest =>
      match gone with
      | true :: _ => true
      | false :: gone' => event_generator_stops gone' rest
      | [] => event_generator_stops [] rest
      end
  end.

(** ** The upload API ([apps/api/upload.py]) *)

(** [s.replace(a, b)] for one-character [a] and [b]. *)
Fixpoint replace_char (a b : Ascii.ascii) (s : string) : string :=
  match s with
  | EmptyString => EmptyString
  | String c s' =>
      String (if decide (c = a) then b else c) (replace_char a b s')
  end.

(** [s.split(sep)] for a one-character [sep]. *)
Fixpoint split (sep : Ascii.ascii) (s : string) : list string :=
  match s with
  | EmptyString => [EmptyString]
  | String c s' =>
      if decide (c = sep) then EmptyString :: split sep s'
      else match split sep s' with
           | piece :: rest => String c piece :: rest
           | [] => [String c EmptyString]
           end
  end.

Fixpoint has_char (c : Ascii.ascii) (s : string) : bool :=
  match s with
  | EmptyString => false
  | String c' s' => bool_decide (c' = c) || has_char c s'
  end.

Definition safe_filename (filename : string) : string :=
  replace_char "/"%char "_"%char (replace_char " "%char "_"%char filename).

(** [generate_s3_key], given the uuid and the date ([%Y/%m/%d]) it
    draws. *)
Definition generate_s3_key (file_id timestamp user_id filename : string)
    : string :=
  "uploads/" +:+ user_id +:+ "/" +:+ timestamp +:+ "/" +:+ file_id +:+ "_"
  +:+ safe_filename filename.

(** [s3_key.split('/')[-1].split('_')[0]] *)
Definition file_id_of_key (s3_key : string) : string :=
  default ""
    (head (split "_"%char (default "" (last (split "/"%char s3_key))))).

Definition get_content_type_category (content_type : string) : string :=
  if String.prefix "image/" content_type then "image"
  else if bool_decide (content_type ∈
            [ "application/pdf"; "text/plain"; "application/msword";
              "application/vnd.openxmlformats-officedocument.wordprocessingml.document" ])
  then "document"
  else if bool_decide (content_type ∈
            [ "text/x-python"; "application/javascript";
              "text/x-java-source" ])
  then "code"
  else if bool_decide (content_type ∈
            [ "application/json"; "text/csv"; "application/vnd.ms-excel" ])
  then "data"
  else "document".

Record AnalysisOptions := {
  extract_images : bool;
  generate_summary : bool;
  detect_language : bool;
  analysis_type : string;
}.

Record FileMetadata := {
  fm_user_id : string;
  fm_filename : string;
  fm_content_type : string;
  fm_size : N;
  fm_analysis_options : option AnalysisOptions;
}.

(** The input [start_analysis_workflow] hands to the workflow. *)
Record analysis_input := {
  ai_fileUrl : string;
  ai_userId : string;
  ai_fileName : string;
  ai_s3Key : string;
  ai_analysisType : string;
  ai_extractImages : bool;
  ai_generateSummary : bool;
  ai_detectLanguage : bool;
}.

Definition make_analysis_input (file_url : string) (metadata : FileMetadata)
    (s3_key : string) : analysis_input :=
  {| ai_fileUrl := file_url;
     ai_userId := fm_user_id metadata;
     ai_fileName := fm_filename metadata;
     ai_s3Key := s3_key;
     ai_analysisType := get_content_type_category (fm_content_type metadata);
     ai_extractImages :=
       match fm_analysis_options metadata with
       | Some o => extract_images o | None => false end;
     ai_generateSummary :=
       match fm_analysis_options metadata with
       | Some o => generate_summary o | None => true end;
     ai_detectLanguage :=
       match fm_analysis_options metadata with
       | Some o => detect_language o | None => true end |}.

(** [value or dflt] on an optional string. *)
Definition str_or (value : option string) (dflt : string) : string :=
  match value with
  | Some s => if bool_decide (s = "") then dflt else s
  | None => dflt
  end.

Record UploadFile := {
  uf_filename : option string;
  uf_size : option N;
  uf_content_type : option string;
}.

Record UploadResponse := {
  ur_file_id : string;
  ur_filename : string;
  ur_s3_key : string;
  ur_size : N;
  ur_content_type : string;
  ur_workflow_id : string;
  ur_upload_url : string;
  ur_status : string;
  ur_created_at : string;
}.

(** A handler returns or raises [HTTPException]. *)
Inductive http_result (A : Type) :=
| Returns (a : A)
| HTTPException (status_code : nat) (detail : string).
Arguments Returns {A} a.
Arguments HTTPException {A} status_code detail.

(** The settings of the upload API and what one call of [upload_file]
    meets: the uuids and clock readings it draws, [put_object] succeeding
    or raising with a message, the module-level [temporal_client] present
    or not, [start_workflow] succeeding or raising, and the two [xadd]
    calls of the publishers.  [ue_str_http] is [str] of an
    [HTTPException]. *)
Record upload_env := {
  ue_bucket : string;
  ue_region : string;
  ue_file_uuid : string;
  ue_workflow_uuid : string;
  ue_date : string;
  ue_now : string;
  ue_put_object : option string;
  ue_temporal_client : bool;
  ue_start_workflow : option string;
  ue_xadd_analysis : xadd_outcome;
  ue_xadd_workflow : xadd_outcome;
  ue_str_http : nat → string → string;
}.

(** [upload_to_s3]: the URL of the stored object. *)
Definition upload_to_s3 (env : upload_env) (s3_key : string)
    : http_result string :=
  match ue_put_object env with
  | None =>
      Returns ("https://" +:+ ue_bucket env +:+ ".s3." +:+ ue_region env
               +:+ ".amazonaws.com/" +:+ s3_key)
  | Some msg => HTTPException 500 ("S3 upload failed: " +:+ msg)
  end.

(** [start_analysis_workflow]: the workflow id, with the input the
    workflow was started on. *)
Definition start_analysis_workflow (env : upload_env) (file_url : string)
    (metadata : FileMetadata) (s3_key : string)
    : http_result (string * analysis_input) :=
  if negb (ue_temporal_client env)
  then HTTPException 500 "Temporal client not initialized"
  else
    match ue_start_workflow env with
    | None =>
        Returns ("analyze-" +:+ ue_workflow_uuid env,
                 make_analysis_input file_url metadata s3_key)
    | Some msg => HTTPException 500 ("Workflow start failed: " +:+ msg)
    end.

Definition MAX_UPLOAD : N := (100 * 1024 * 1024)%N.

(** What [upload_file] leaves behind besides its answer: the Redis log,
    and the workflow it started, if any. *)
Record upload_outcome := {
  uo_result : http_result UploadResponse;
  uo_log : redis_log;
  uo_started : option (string * analysis_input);
}.

Definition upload_failed (env : upload_env) (status : nat) (detail : string)
    (log : redis_log) (started : option (string * analysis_input))
    : upload_outcome :=
  {| uo_result :=
       HTTPException 500
         ("Upload failed: " +:+ ue_str_http env status detail);
     uo_log := log;
     uo_started := started |}.

Definition upload_file (env : upload_env) (file : UploadFile)
    (user_id : string) (opt_extract_images opt_generate_summary
      opt_detect_language : bool) (opt_analysis_type : string)
    (m : StreamManager) (log : redis_log) : upload_outcome :=
  match uf_filename file with
  | None =>
      {| uo_result := HTTPException 400 "Filename is required";
         uo_log := log; uo_started := None |}
  | Some filename =>
  if bool_decide (filename = "") then
    {| uo_result := HTTPException 400 "Filename is required";
       uo_log := log; uo_started := None |}
  else if match uf_size file with
          | Some size => negb (size =? 0)%N && (MAX_UPLOAD <? size)%N
          | None => false
          end then
    {| uo_result := HTTPException 413 "File too large (max 100MB)";
       uo_log := log; uo_started := None |}
  else
    let s3_key :=
      generate_s3_key (ue_file_uuid env) (ue_date env) user_id filename in
    let file_id := file_id_of_key s3_key in
    let content_type :=
      str_or (uf_content_type file) "application/octet-stream" in
    let size := default 0%N (uf_size file) in
    let metadata :=
      {| fm_user_id := user_id;
         fm_filename := filename;
         fm_content_type := content_type;
         fm_size := size;
         fm_analysis_options :=
           Some {| extract_images := opt_extract_images;
                   generate_summary := opt_generate_summary;
                   detect_language := opt_detect_language;
                   analysis_type :=
                     if bool_decide (opt_analysis_type ≠ "auto")
                     then opt_analysis_type
                     else get_content_type_category
                            (str_or (uf_content_type file) "") |} |} in
    match upload_to_s3 env s3_key with
    | HTTPException status detail => upload_failed env status detail log None
    | Returns file_url =>
        let log1 :=
          if redis_client m then
            publish_analysis_progress file_id
              {[ "step" := "uploaded"; "progress" := "25";
                 "message" := "File uploaded to S3 successfully";
                 "s3_url" := file_url ]}
              (ue_now env) (ue_xadd_analysis env) m log
          else log in
        match start_analysis_workflow env file_url metadata s3_key with
        | HTTPException status detail =>
            upload_failed env status detail log1 None
        | Returns (workflow_id, input) =>
            let log2 :=
              if redis_client m then
                publish_workflow_progress workflow_id
                  {[ "step" := "started"; "progress" := "30";
                     "message" := "Analysis workflow started";
                     "file_id" := file_id ]}
                  (ue_now env) (ue_xadd_workflow env) m log1
              else log1 in
            {| uo_result :=
                 Returns {| ur_file_id := file_id;
                            ur_filename := filename;
                            ur_s3_key := s3_key;
                            ur_size := size;
                            ur_content_type := content_type;
                            ur_workflow_id := workflow_id;
                            ur_upload_url := file_url;
                            ur_status := "uploaded";
                            ur_created_at := ue_now env |};
               uo_log := log2;
               uo_started := Some (workflow_id, input) |}
        end
    end
  end.

(** * Properties *)

(** ** The order on ids *)

Lemma id_lt_spec (a b : entry_id) :
  id_lt a b ↔ (a.1 < b.1 ∨ a.1 = b.1 ∧ a.2 < b.2)%N.
Proof.
  unfold id_lt, id_ltb.
  rewrite orb_true_iff, andb_true_iff, !N.ltb_lt, N.eqb_eq. tauto.
Qed.

#[global] Instance id_lt_trans : Transitive id_lt.
Proof. intros a b c. rewrite !id_lt_spec. lia. Qed.

#[global] Instance id_lt_irrefl : Irreflexive id_lt.
Proof. intros a. red. rewrite id_lt_spec. lia. Qed.

#[global] Instance id_le_refl : Reflexive id_le.
Proof. intros a. by left. Qed.

#[global] Instance id_le_trans : Transitive id_le.
Proof.
  intros a b c [->|Hab] [->|Hbc]; [by left|by right|by right|].
  right. by etrans.
Qed.

Lemma id_le_lt_trans a b c : id_le a b → id_lt b c → id_lt a c.
Proof. intros [->|Hab] Hbc; [done|by etrans]. Qed.

Lemma id_lt_le_trans a b c : id_lt a b → id_le b c → id_lt a c.
Proof. intros Hab [<-|Hbc]; [done|by etrans]. Qed.

Lemma id_lt_not_le a b : id_lt a b → ¬ id_le b a.
Proof.
  intros Hab [->|Hba]; [by apply (irreflexivity id_lt a)|].
  apply (irreflexivity id_lt a). by etrans.
Qed.

Lemma id0_le (a : entry_id) : id_le id0 a.
Proof.
  destruct a as [ms sq]. unfold id_le, id0. rewrite id_lt_spec. simpl.
  destruct (decide (ms = 0%N)) as [->|]; [|right; lia].
  destruct (decide (sq = 0%N)) as [->|]; [by left|right; lia].
Qed.

(** ** Publishing *)

Lemma publish_workflow_no_client workflow_id data ts o m log :
  redis_client m = false →
  publish_workflow_progress workflow_id data ts o m log = log.
Proof. unfold publish_workflow_progress. by intros ->. Qed.

Lemma publish_analysis_no_client file_id data ts o m log :
  redis_client m = false →
  publish_analysis_progress file_id data ts o m log = log.
Proof. unfold publish_analysis_progress. by intros ->. Qed.

Lemma publish_workflow_raises workflow_id data ts m log :
  publish_workflow_progress workflow_id data ts XaddRaises m log = log.
Proof. unfold publish_workflow_progress. by destruct (redis_client m). Qed.

Lemma publish_analysis_raises file_id data ts m log :
  publish_analysis_progress file_id data ts XaddRaises m log = log.
Proof. unfold publish_analysis_progress. by destruct (redis_client m). Qed.

(** C10.  Both publish endpoints answer with status [published] whatever
    happened to the append: the body is the same for every outcome, and
    with no Redis client, or when [xadd] raises, the log is left as it
    was. *)
Theorem publish_response_regardless_of_append
    (id : string) (data : fields) (ts : string) (o : xadd_outcome)
    (m : StreamManager) (log : redis_log) :
  (publish_workflow_event id data ts o m log).2
    = {[ "status" := "published"; "workflow_id" := id ]}
  ∧ (publish_analysis_event id data ts o m log).2
    = {[ "status" := "published"; "file_id" := id ]}
  ∧ (publish_workflow_event id data ts o m log).2 !! "status"
    = Some "published"
  ∧ (publish_analysis_event id data ts o m log).2 !! "status"
    = Some "published"
  ∧ (publish_workflow_event id data ts o (without_redis m) log).1 = log
  ∧ (publish_analysis_event id data ts o (without_redis m) log).1 = log
  ∧ (publish_workflow_event id data ts XaddRaises m log).1 = log
  ∧ (publish_analysis_event id data ts XaddRaises m log).1 = log.
Proof.
  unfold publish_workflow_event, publish_analysis_event. cbn [fst snd].
  split_and!.
  - reflexivity.
  - reflexivity.
  - apply lookup_insert_eq.
  - apply lookup_insert_eq.
  - by apply publish_workflow_no_client.
  - by apply publish_analysis_no_client.
  - apply publish_workflow_raises.
  - apply publish_analysis_raises.
Qed.

(** The stream [publish_analysis_progress] writes is never the stream
    [stream_file_analysis] reads, whatever the file id. *)
Lemma analysis_keys_disjoint (file_id : string) :
  STREAM_KEYS_at "file_analysis" ≠ stream_key File file_id.
Proof.
  unfold STREAM_KEYS_at. simpl. intros H.
  repeat (destruct file_id as [|? file_id]; simpl in H;
          [discriminate H | injection H as _ H]).
  destruct file_id; discriminate H.
Qed.

(** C1.  The scenario on the code: the event published for file [abc]
    lands in [pip-ai:analysis:progress]; the generator attached to [abc]
    reads [abc:analysis], sees nothing, and yields [connected] and then,
    once stopped, [disconnected]. *)
Theorem published_analysis_event_not_streamed :
  let w := run (boot true true)
    [ PublishAnalysis "abc"
        {[ "event_type" := "uploaded"; "progress" := "25" ]} "t0" (XaddOk 7 0);
      Attach File "abc" "t1";
      Resume 0 "t2" ReadOk QNotFound;
      Resume 0 "t3" ReadOk QNotFound;
      Stop "abc";
      Resume 0 "t4" ReadOk QNotFound ] in
  stream_of (w_log w) "pip-ai:analysis:progress"
    = [ ((7%N, 0%N),
         {[ "file_id" := "abc"; "timestamp" := "t0";
            "event_type" := "uploaded"; "progress" := "25" ]}) ]
  ∧ stream_of (w_log w) (stream_key File "abc") = []
  ∧ output <$> w_gens w !! 0
    = Some [ connected_msg File "abc" "t1"; disconnected_msg File "abc" "t4" ].
Proof. split_and!; vm_compute; reflexivity. Qed.

(** ** The registry *)

Lemma stop_stream_idempotent stream_id m :
  stop_stream stream_id (stop_stream stream_id m) = stop_stream stream_id m.
Proof.
  unfold stop_stream, with_active_streams. simpl.
  by rewrite insert_insert_eq.
Qed.

Lemma stop_stream_unknown_size stream_id m :
  active_streams m !! stream_id = None →
  size (active_streams (stop_stream stream_id m))
    = S (size (active_streams m)).
Proof. intros H. simpl. by apply map_size_insert_None. Qed.

(** C7.  [stop_stream] on an id that is not registered is not a no-op: it
    files the id under [False], and the health endpoint counts it. *)
Theorem stop_unknown_id_is_counted :
  let m := w_mgr (boot true true) in
  active_streams m !! "ghost" = None
  ∧ h_active_streams (stream_health "t" m) = 0
  ∧ active_streams (stop_stream "ghost" m) !! "ghost" = Some false
  ∧ h_active_streams (stream_health "t" (stop_stream "ghost" m)) = 1.
Proof. split_and!; vm_compute; reflexivity. Qed.

(** ** Runs *)

Lemma run_snoc w acts a : run w (acts ++ [a]) = step (run w acts) a.
Proof. unfold run. by rewrite foldl_app. Qed.

Lemma run_app w acts1 acts2 : run w (acts1 ++ acts2) = run (run w acts1) acts2.
Proof. unfold run. by rewrite foldl_app. Qed.

Lemma boot_initial redis temporal : initial (boot redis temporal).
Proof. split; [done|]. intros key l H. simpl in H. by rewrite lookup_empty in H. Qed.

Lemma reachable_boot redis temporal acts :
  reachable (run (boot redis temporal) acts).
Proof. eexists _, _. split; [apply boot_initial|done]. Qed.

Lemma reachable_step w a : reachable w → reachable (step w a).
Proof.
  intros (w0 & acts & Hw0 & ->). exists w0, (acts ++ [a]).
  by rewrite run_snoc.
Qed.

Lemma reachable_ind (P : world → Prop) :
  (∀ w, initial w → P w) →
  (∀ w a, reachable w → P w → P (step w a)) →
  ∀ w, reachable w → P w.
Proof.
  intros Hinit Hstep w (w0 & acts & Hw0 & ->).
  induction acts as [|a acts IH] using rev_ind; [by apply Hinit|].
  rewrite run_snoc. apply Hstep; [|done]. by exists w0, acts.
Qed.

Lemma step_clients w a :
  redis_client (w_mgr (step w a)) = redis_client (w_mgr w)
  ∧ temporal_client (w_mgr (step w a)) = temporal_client (w_mgr w).
Proof.
  destruct a as [| | |k arg ts|i ts r q|]; simpl; try done.
  - unfold start. destruct (w_mgr w) as [[] ? ?]; simpl; done.
  - destruct (w_gens w !! i) as [g|]; [|done].
    destruct (g_pc g); [|done]. simpl. unfold loop_turn, finalize.
    destruct (is_active _ _); [destruct r|]; simpl;
      try destruct (consume_streams _ _ _ _); done.
Qed.

(** ** One turn of the loop *)

Lemma output_app g tr :
  omap yielded (g_trace g ++ tr) = output g ++ omap yielded tr.
Proof. unfold output. by rewrite omap_app. Qed.

Lemma consume_messages_yields k arg name msgs c :
  omap yielded (consume_messages k arg name msgs c).2
    = entry_messages k arg msgs.
Proof.
  revert c. induction msgs as [|e msgs IH]; intros c; simpl; [done|].
  specialize (IH (advance c name e.1)).
  destruct (consume_messages k arg name msgs _) as [c2 tr]. simpl in *.
  unfold entry_messages in *. simpl.
  destruct (entry_message k arg e); [f_equal|]; exact IH.
Qed.

Lemma consume_streams_yields k arg streams c :
  omap yielded (consume_streams k arg streams c).2
    = entry_messages k arg (reply_entries streams).
Proof.
  revert c. induction streams as [|[name msgs] streams IH]; intros c;
    simpl; [done|].
  pose proof (consume_messages_yields k arg name msgs c) as Hm.
  destruct (consume_messages k arg name msgs c) as [c1 tr1].
  specialize (IH c1).
  destruct (consume_streams k arg streams c1) as [c2 tr2]. simpl in *.
  unfold entry_messages, reply_entries in *. simpl.
  by rewrite !omap_app, Hm, IH.
Qed.

Lemma loop_turn_ok ts q log m g :
  is_active m (registry_key (g_kind g) (g_arg g)) = true →
  loop_turn ts ReadOk q log m g =
    let req := request (g_kind g) (g_arg g) (g_cursor g) in
    let ct := consume_streams (g_kind g) (g_arg g)
                (xread log req (read_count (g_kind g))) (g_cursor g) in
    (m, {| g_kind := g_kind g; g_arg := g_arg g; g_cursor := ct.1;
           g_pc := InLoop;
           g_trace := g_trace g ++ Read req :: ct.2 ++
             temporal_status (g_kind g) (g_arg g) ts q m ++ [Sleep] |}).
Proof.
  intros Hact. unfold loop_turn. rewrite Hact. simpl.
  by destruct (consume_streams _ _ _ _).
Qed.

Lemma loop_turn_connection_error ts q log m g :
  is_active m (registry_key (g_kind g) (g_arg g)) = true →
  loop_turn ts ReadConnectionError q log m g =
    (with_active_streams
       (delete (registry_key (g_kind g) (g_arg g)) (active_streams m)) m,
     {| g_kind := g_kind g; g_arg := g_arg g; g_cursor := g_cursor g;
        g_pc := Exhausted;
        g_trace := g_trace g ++
          [ Read (request (g_kind g) (g_arg g) (g_cursor g));
            Emit (error_msg (g_kind g) "Redis connection lost" ts);
            Emit (disconnected_msg (g_kind g) (g_arg g) ts) ] |}).
Proof. intros Hact. unfold loop_turn. by rewrite Hact. Qed.

Lemma loop_turn_stopped ts r q log m g :
  is_active m (registry_key (g_kind g) (g_arg g)) = false →
  loop_turn ts r q log m g =
    (with_active_streams
       (delete (registry_key (g_kind g) (g_arg g)) (active_streams m)) m,
     {| g_kind := g_kind g; g_arg := g_arg g; g_cursor := g_cursor g;
        g_pc := Exhausted;
        g_trace := g_trace g ++
          [ Emit (disconnected_msg (g_kind g) (g_arg g) ts) ] |}).
Proof. intros Hact. unfold loop_turn. by rewrite Hact. Qed.

(** A turn keeps what the generator is, adds to its trace, and either
    stays in the loop or ends on [disconnected]. *)
Lemma loop_turn_shape ts r q log m g :
  let g' := (loop_turn ts r q log m g).2 in
  g_kind g' = g_kind g ∧ g_arg g' = g_arg g
  ∧ ∃ tr, g_trace g' = g_trace g ++ tr
      ∧ (g_pc g' = Exhausted →
         ∃ tr0, tr = tr0 ++ [Emit (disconnected_msg (g_kind g) (g_arg g) ts)]).
Proof.
  unfold loop_turn.
  destruct (is_active _ _); [destruct r|]; simpl;
    try destruct (consume_streams _ _ _ _) as [c tr]; simpl;
    (split; [done|split; [done|]]); eexists; (split; [done|]);
    intros Hpc; try discriminate Hpc.
  - by eexists [_; _].
  - by exists [].
Qed.

(** ** Finished generators *)





(** ** The status query *)

Lemma entry_messages_all k arg es :
  k ≠ Global →
  entry_messages k arg es =
    (λ e : entry,
       _format_sse_message (get_or e.2 "event_type" (default_event k)) e.2)
      <$> es.
Proof.
  intros Hk. unfold entry_messages.
  induction es as [|e es IH]; [done|].
  rewrite fmap_cons, <- IH. by destruct k.
Qed.

Lemma temporal_status_failed arg ts q m :
  (∀ status, q ≠ QStatus status) →
  omap yielded (temporal_status Workflow arg ts q m) = [].
Proof.
  intros Hq. unfold temporal_status.
  destruct (temporal_client m); [|done].
  destruct q; [by destruct (Hq status)|done..].
Qed.

(** C6.  A status query that fails, for whatever reason, ends nothing:
    the turn yields the entries it read and no other message, the
    registry is untouched and the generator is still in its loop; the next
    turn reads from the cursor the failed turn left and yields every
    entry [xread] returns, followed by the status if the query now
    succeeds. *)
Theorem status_query_failure_keeps_streaming (g : gen) (m : StreamManager)
    (log log' : redis_log) (ts ts' : string) (q q' : query_outcome) :
  g_kind g = Workflow →
  is_active m (g_arg g) = true →
  (∀ status, q ≠ QStatus status) →
  let mg1 := loop_turn ts ReadOk q log m g in
  let mg2 := loop_turn ts' ReadOk q' log' mg1.1 mg1.2 in
  let fmt := λ e : entry,
    _format_sse_message (get_or e.2 "event_type" "progress") e.2 in
  mg1.1 = m
  ∧ g_pc mg1.2 = InLoop
  ∧ output mg1.2 = output g ++
      (fmt <$> reply_entries
         (xread log (request Workflow (g_arg g) (g_cursor g)) 10))
  ∧ g_pc mg2.2 = InLoop
  ∧ output mg2.2 = output mg1.2 ++
      (fmt <$> reply_entries
         (xread log' (request Workflow (g_arg g) (g_cursor mg1.2)) 10))
      ++ omap yielded (temporal_status Workflow (g_arg g) ts' q' m).
Proof.
  intros Hk Hact Hq mg1 mg2 fmt.
  assert (is_active m (registry_key (g_kind g) (g_arg g)) = true) as Hact1
    by by rewrite Hk.
  subst mg2 mg1. rewrite (loop_turn_ok _ _ _ _ _ Hact1). cbn [fst snd].
  match goal with |- context [loop_turn ts' ReadOk q' log' m ?g1] =>
    assert (is_active m (registry_key (g_kind g1) (g_arg g1)) = true)
      as Hact2 by done;
    rewrite (loop_turn_ok _ _ _ _ g1 Hact2)
  end.
  cbn [fst snd g_pc g_kind g_arg g_cursor]. rewrite Hk.
  split_and!; try done.
  - unfold output at 1. cbn [g_trace]. rewrite output_app.
    cbn [omap list_omap yielded]. f_equal.
    change (list_omap _ _ yielded) with (omap (M:=list) yielded).
    rewrite !omap_app, consume_streams_yields, temporal_status_failed by done.
    rewrite entry_messages_all by done. simpl. by rewrite app_nil_r.
  - unfold output at 1. cbn [g_trace].
    match goal with |- omap yielded (?t1 ++ ?t2) = _ =>
      rewrite (omap_app yielded t1 t2) end.
    f_equal. cbn [omap list_omap yielded].
    change (list_omap _ _ yielded) with (omap (M:=list) yielded).
    rewrite !omap_app, consume_streams_yields.
    rewrite entry_messages_all by done. simpl. by rewrite app_nil_r.
Qed.

Lemma status_query_failure_keeps_streaming_witness :
  let m := w_mgr (run (boot true true) [Attach Workflow "wf" "t0"]) in
  let g := {| g_kind := Workflow; g_arg := "wf"; g_cursor := Single id0;
              g_pc := InLoop;
              g_trace := [Emit (connected_msg Workflow "wf" "t0")] |} in
  let log := xadd "wf:progress" {[ "step" := "parse" ]} None 5 0 ∅ in
  let log' := xadd "wf:progress" {[ "step" := "done" ]} None 9 0 log in
  let mg1 := loop_turn "t1" ReadOk QNotFound log m g in
  output (loop_turn "t2" ReadOk QUnsupported log' mg1.1 mg1.2).2
  = [ connected_msg Workflow "wf" "t0";
      _format_sse_message "progress" {[ "step" := "parse" ]};
      _format_sse_message "progress" {[ "step" := "done" ]} ].
Proof.
  intros m g log log' mg1.
  destruct (status_query_failure_keeps_streaming g m log log' "t1" "t2"
              QNotFound QUnsupported)
    as (_ & _ & _ & _ & Hout); [by vm_compute| by vm_compute | done |].
  subst mg1. rewrite Hout. by vm_compute.
Defined.

Lemma count_reads_app tr1 tr2 :
  count_reads (tr1 ++ tr2) = count_reads tr1 + count_reads tr2.
Proof. unfold count_reads. by rewrite List.filter_app, length_app. Qed.

Lemma count_queries_app tr1 tr2 :
  count_queries (tr1 ++ tr2) = count_queries tr1 + count_queries tr2.
Proof. unfold count_queries. by rewrite List.filter_app, length_app. Qed.

Lemma consume_messages_counts k arg name msgs c :
  count_reads (consume_messages k arg name msgs c).2 = 0
  ∧ count_queries (consume_messages k arg name msgs c).2 = 0.
Proof.
  revert c. induction msgs as [|e msgs IH]; intros c; simpl; [done|].
  specialize (IH (advance c name e.1)).
  by destruct (consume_messages k arg name msgs _).
Qed.

Lemma consume_streams_counts k arg streams c :
  count_reads (consume_streams k arg streams c).2 = 0
  ∧ count_queries (consume_streams k arg streams c).2 = 0.
Proof.
  revert c. induction streams as [|[name msgs] streams IH]; intros c;
    simpl; [done|].
  pose proof (consume_messages_counts k arg name msgs c) as Hm.
  destruct (consume_messages k arg name msgs c) as [c1 tr1].
  specialize (IH c1).
  destruct (consume_streams k arg streams c1) as [c2 tr2]. simpl in *.
  rewrite count_reads_app, count_queries_app. lia.
Qed.

Lemma consume_messages_handled k arg name msgs c :
  handled (consume_messages k arg name msgs c).2 = msgs
  ∧ Forall (λ ef, is_entry ef = true) (consume_messages k arg name msgs c).2.
Proof.
  revert c. induction msgs as [|e msgs IH]; intros c; simpl; [done|].
  specialize (IH (advance c name e.1)).
  destruct (consume_messages k arg name msgs _) as [c2 tr]. simpl in *.
  destruct IH as [IH1 IH2]. split; [|by constructor].
  unfold handled in *. simpl. by f_equal.
Qed.

Lemma consume_streams_handled k arg streams c :
  handled (consume_streams k arg streams c).2 = reply_entries streams
  ∧ Forall (λ ef, is_entry ef = true) (consume_streams k arg streams c).2.
Proof.
  revert c. induction streams as [|[name msgs] streams IH]; intros c;
    simpl; [done|].
  pose proof (consume_messages_handled k arg name msgs c) as [Hm1 Hm2].
  destruct (consume_messages k arg name msgs c) as [c1 tr1].
  specialize (IH c1).
  destruct (consume_streams k arg streams c1) as [c2 tr2]. simpl in *.
  destruct IH as [IH1 IH2]. split; [|by apply Forall_app].
  unfold handled, reply_entries in *. simpl.
  by rewrite omap_app, Hm1, IH1.
Qed.

(** C9, as the code has it.  With a Temporal client attached, every turn
    of the workflow loop whose read succeeds is, in this order: the one
    [xread]; the entries of its reply, each handled and yielded; the
    status query, once; the [temporal_status] message if the query
    answered; the sleep.  So the query is issued in every such turn,
    after all the entries of the turn have been handled, at the cadence
    of the read. *)
Theorem status_query_in_every_turn (g : gen) (m : StreamManager)
    (log : redis_log) (ts : string) (q : query_outcome) :
  g_kind g = Workflow →
  temporal_client m = true →
  is_active m (g_arg g) = true →
  let req := request Workflow (g_arg g) (g_cursor g) in
  let reply := reply_entries (xread log req 10) in
  ∃ entries status,
    let tr := Read req :: entries ++ Query (g_arg g) :: status ++ [Sleep] in
    g_trace (loop_turn ts ReadOk q log m g).2 = g_trace g ++ tr
    ∧ Forall (λ ef, is_entry ef = true) entries
    ∧ handled entries = reply
    ∧ omap yielded entries = entry_messages Workflow (g_arg g) reply
    ∧ status =
        match q with
        | QStatus s =>
            [Emit (_format_sse_message "temporal_status"
                     {[ "workflow_id" := g_arg g; "status" := s;
                        "timestamp" := ts ]})]
        | QNotFound | QUnsupported | QRaises _ => []
        end
    ∧ count_reads tr = 1
    ∧ count_queries tr = 1
    ∧ Query (g_arg g) ∈ tr.
Proof.
  intros Hk Htc Hact req reply.
  assert (is_active m (registry_key (g_kind g) (g_arg g)) = true) as Hact1
    by by rewrite Hk.
  rewrite (loop_turn_ok _ _ _ _ _ Hact1). cbn [snd g_trace]. cbv zeta.
  pose proof (consume_streams_counts (g_kind g) (g_arg g)
    (xread log (request (g_kind g) (g_arg g) (g_cursor g))
       (read_count (g_kind g))) (g_cursor g)) as [Hr Hq].
  pose proof (consume_streams_handled (g_kind g) (g_arg g)
    (xread log (request (g_kind g) (g_arg g) (g_cursor g))
       (read_count (g_kind g))) (g_cursor g)) as [Hh He].
  pose proof (consume_streams_yields (g_kind g) (g_arg g)
    (xread log (request (g_kind g) (g_arg g) (g_cursor g))
       (read_count (g_kind g))) (g_cursor g)) as Hy.
  rewrite Hk in *. unfold temporal_status. rewrite Htc.
  change (read_count Workflow) with 10%nat in *. fold req in Hr, Hq, Hh, He, Hy |- *.
  fold reply in Hh, Hy.
  eexists _, _. split_and!; [reflexivity|exact He|exact Hh|exact Hy|done|..].
  - change (Read ?r :: ?t) with ([Read r] ++ t).
    change (Query ?a :: ?t) with ([Query a] ++ t).
    rewrite !count_reads_app, Hr. by destruct q.
  - change (Read ?r :: ?t) with ([Read r] ++ t).
    change (Query ?a :: ?t) with ([Query a] ++ t).
    rewrite !count_queries_app, Hq. by destruct q.
  - apply list_elem_of_further, elem_of_app. right. apply list_elem_of_here.
Qed.

Lemma status_query_in_every_turn_witness :
  let m := w_mgr (run (boot true true) [Attach Workflow "wf" "t0"]) in
  let log := xadd "wf:progress" {[ "step" := "parse" ]} None 5 0 ∅ in
  let g := {| g_kind := Workflow; g_arg := "wf"; g_cursor := Single id0;
              g_pc := InLoop;
              g_trace := [Emit (connected_msg Workflow "wf" "t0")] |} in
  ∃ entries,
    g_trace (loop_turn "t1" ReadOk (QStatus "RUNNING") log m g).2
    = [ Emit (connected_msg Workflow "wf" "t0");
        Read [("wf:progress", id0)] ]
      ++ entries
      ++ [ Query "wf";
           Emit (_format_sse_message "temporal_status"
                   {[ "workflow_id" := "wf"; "status" := "RUNNING";
                      "timestamp" := "t1" ]});
           Sleep ]
    ∧ handled entries = [((5%N, 0%N), {[ "step" := "parse" ]})]
    ∧ omap yielded entries
      = [_format_sse_message "progress" {[ "step" := "parse" ]}].
Proof.
  intros m log g.
  destruct (status_query_in_every_turn g m log "t1" (QStatus "RUNNING"))
    as (entries & status & Htr & _ & Hh & Hy & -> & _); [by vm_compute..|].
  exists entries. split_and!.
  - exact Htr.
  - rewrite Hh. vm_compute. reflexivity.
  - rewrite Hy. vm_compute. reflexivity.
Defined.

(** C9, as the claim has it, fails: in three turns of the loop the
    status query is issued three times, once after each read. *)
Lemma status_query_cadence_counterexample :
  let w := run (boot true true)
    [ Attach Workflow "wf" "t0";
      Resume 0 "t1" ReadOk (QStatus "RUNNING");
      Resume 0 "t2" ReadOk QNotFound;
      Resume 0 "t3" ReadOk (QStatus "COMPLETED") ] in
  let status s ts :=
    Emit (_format_sse_message "temporal_status"
            {[ "workflow_id" := "wf"; "status" := s; "timestamp" := ts ]}) in
  g_trace <$> w_gens w !! 0 =
    Some [ Emit (connected_msg Workflow "wf" "t0");
           Read [("wf:progress", id0)]; Query "wf"; status "RUNNING" "t1";
           Sleep;
           Read [("wf:progress", id0)]; Query "wf"; Sleep;
           Read [("wf:progress", id0)]; Query "wf"; status "COMPLETED" "t3";
           Sleep ]
  ∧ count_reads <$> (g_trace <$> w_gens w !! 0) = Some 3
  ∧ count_queries <$> (g_trace <$> w_gens w !! 0) = Some 3.
Proof. split_and!; vm_compute; reflexivity. Qed.

(** ** How a stream ends *)








(** ** Dicts as lists of pairs *)

Lemma alist_get_set_eq {V} k (v : V) d : alist_get k (alist_set k v d) = Some v.
Proof.
  induction d as [|[k' v'] d IH]; simpl.
  - by rewrite decide_True.
  - destruct (decide (k' = k)) as [->|Hne]; simpl.
    + by rewrite decide_True.
    + by rewrite decide_False.
Qed.

Lemma alist_get_set_ne {V} k k' (v : V) d :
  k ≠ k' → alist_get k' (alist_set k v d) = alist_get k' d.
Proof.
  intros Hne. induction d as [|[k0 v0] d IH]; simpl.
  - by rewrite decide_False.
  - destruct (decide (k0 = k)) as [->|Hne0]; simpl.
    + by rewrite !decide_False.
    + by rewrite IH.
Qed.

Lemma alist_set_keys {V} k (v : V) d : k ∈ d.*1 → (alist_set k v d).*1 = d.*1.
Proof.
  induction d as [|[k0 v0] d IH]; simpl; intros Hin.
  - by apply elem_of_nil in Hin.
  - destruct (decide (k0 = k)) as [->|Hne]; [done|]. simpl. f_equal.
    apply IH. apply elem_of_cons in Hin as [?|?]; [congruence|done].
Qed.

Lemma alist_get_None {V} k (d : list (string * V)) :
  k ∉ d.*1 → alist_get k d = None.
Proof.
  induction d as [|[k0 v0] d IH]; simpl; intros Hin; [done|].
  apply not_elem_of_cons in Hin as [Hne Hin].
  rewrite decide_False by done. by apply IH.
Qed.

Lemma alist_get_Some_key {V} k (v : V) d : alist_get k d = Some v → k ∈ d.*1.
Proof.
  induction d as [|[k0 v0] d IH]; simpl; intros H; [done|].
  destruct (decide (k0 = k)) as [->|Hne]; [left|right; by apply IH].
Qed.

(** ** What [xread] returns *)

Lemma sorted_ids_sublist (l1 l2 : list entry) :
  l1 `sublist_of` l2 → sorted_ids l2 → sorted_ids l1.
Proof.
  unfold sorted_ids. intros Hsub. induction Hsub as [|x l1 l2 Hsub IH|x l1 l2 Hsub IH];
    simpl; intros Hs; [done|..].
  - apply StronglySorted_cons in Hs as [Hx Hs].
    apply StronglySorted_cons. split; [|by apply IH].
    rewrite Forall_forall in *. intros y Hy. apply Hx.
    apply list_elem_of_fmap in Hy as (e & -> & He).
    apply list_elem_of_fmap_2. by eapply elem_of_sublist.
  - apply StronglySorted_cons in Hs as [_ Hs]. by apply IH.
Qed.

Lemma newer_spec cur l n :
  sorted_ids l →
  sorted_ids (take n (newer cur l))
  ∧ Forall (id_lt cur) (take n (newer cur l)).*1.
Proof.
  intros Hs. split.
  - eapply sorted_ids_sublist; [|done].
    etrans; [apply sublist_take|]. apply sublist_filter.
  - apply Forall_fmap, Forall_take, Forall_forall. intros e He.
    unfold newer in He. by apply list_elem_of_filter in He as [? _].
Qed.

Lemma xread_keys log req n : (xread log req n).*1 `sublist_of` req.*1.
Proof.
  unfold xread. induction req as [|[key cur] req IH]; simpl; [done|].
  destruct (take n (newer cur (stream_of log key))); simpl.
  - by apply sublist_cons.
  - by apply sublist_skip.
Qed.

Lemma xread_get log req n chan msgs :
  NoDup req.*1 →
  alist_get chan (xread log req n) = Some msgs →
  ∃ cur, alist_get chan req = Some cur
    ∧ msgs = take n (newer cur (stream_of log chan))
    ∧ msgs ≠ [].
Proof.
  unfold xread. induction req as [|[key cur] req IH]; simpl; [done|].
  intros [Hkey Hnd]%NoDup_cons Hget.
  destruct (decide (key = chan)) as [->|Hne].
  - destruct (take n (newer cur (stream_of log chan))) as [|e es] eqn:Ht;
      simpl in Hget.
    + apply alist_get_Some_key in Hget.
      destruct Hkey. eapply elem_of_sublist; [done|].
      apply (xread_keys log req n).
    + rewrite decide_True in Hget by done. injection Hget as <-.
      by exists cur.
  - destruct (take n (newer cur (stream_of log key))) as [|e es] eqn:Ht;
      simpl in Hget; [by apply IH|].
    rewrite decide_False in Hget by done. by apply IH.
Qed.

Lemma log_wf_stream log key : log_wf log → sorted_ids (stream_of log key).
Proof.
  intros Hwf. unfold stream_of.
  destruct (log !! key) as [l|] eqn:Hl; [by eapply Hwf|]. constructor.
Qed.

(** ** What [xadd] keeps *)

Lemma sorted_ids_last (l : list entry) e :
  sorted_ids l → e ∈ l → id_le e.1 (last_id_of l).
Proof.
  unfold sorted_ids, last_id_of. intros Hs He.
  destruct (last l) as [z|] eqn:Hl;
    [|apply last_None in Hl; subst; by apply elem_of_nil in He].
  apply last_Some in Hl as [l' ->].
  apply elem_of_app in He as [He|He].
  - right. rewrite fmap_app in Hs.
    eapply StronglySorted_app_1_elem_of; [done|..].
    + by apply list_elem_of_fmap_2.
    + apply list_elem_of_here.
  - apply list_elem_of_singleton in He as ->. by left.
Qed.

Lemma next_id_above now_ms l : id_lt (last_id_of l) (next_id now_ms l).
Proof.
  unfold next_id. destruct (last_id_of l) as [ms sq]. simpl.
  destruct (N.ltb_spec ms now_ms); apply id_lt_spec; simpl; lia.
Qed.

Lemma sorted_ids_snoc l now_ms data :
  sorted_ids l → sorted_ids (l ++ [(next_id now_ms l, data)]).
Proof.
  intros Hs. unfold sorted_ids. rewrite fmap_app.
  apply StronglySorted_app. split_and!; [|done|repeat constructor].
  intros x1 x2 Hx1 Hx2. simpl in Hx2.
  apply list_elem_of_singleton in Hx2 as ->.
  apply list_elem_of_fmap in Hx1 as (e & -> & He).
  eapply id_le_lt_trans; [by apply sorted_ids_last|apply next_id_above].
Qed.

Lemma xadd_wf key data maxlen now_ms evicted log :
  log_wf log → log_wf (xadd key data maxlen now_ms evicted log).
Proof.
  intros Hwf key' l. unfold xadd.
  destruct (decide (key = key')) as [<-|Hne].
  - rewrite lookup_insert_eq. intros [= <-].
    pose proof (sorted_ids_snoc _ now_ms data (log_wf_stream log key Hwf)).
    destruct maxlen as [n|]; [|done].
    eapply sorted_ids_sublist; [apply sublist_drop|done].
  - rewrite lookup_insert_ne by done. apply Hwf.
Qed.

Lemma publish_workflow_wf workflow_id data ts o m log :
  log_wf log → log_wf (publish_workflow_progress workflow_id data ts o m log).
Proof.
  intros Hwf. unfold publish_workflow_progress.
  destruct (negb _); [done|]. destruct o; [by apply xadd_wf|done].
Qed.

Lemma publish_analysis_wf file_id data ts o m log :
  log_wf log → log_wf (publish_analysis_progress file_id data ts o m log).
Proof.
  intros Hwf. unfold publish_analysis_progress.
  destruct (negb _); [done|]. destruct o; [by apply xadd_wf|done].
Qed.

Lemma step_log_wf w a : log_wf (w_log w) → log_wf (w_log (step w a)).
Proof.
  intros Hwf. destruct a as [| | |k arg ts|i ts r q|]; simpl;
    auto using publish_workflow_wf, publish_analysis_wf, xadd_wf.
  destruct (w_gens w !! i) as [g|]; [|done]. by destruct (g_pc g).
Qed.

(** ** Cursors and the entries a generator goes through *)

Lemma request_advance k arg c name id :
  name ∈ (request k arg c).*1 →
  request k arg (advance c name id) = alist_set name id (request k arg c).
Proof.
  destruct c as [last_id|last_ids]; simpl; [|done].
  intros ->%list_elem_of_singleton. by rewrite decide_True.
Qed.

Lemma consumed_app chan tr1 tr2 :
  consumed chan (tr1 ++ tr2) = consumed chan tr1 ++ consumed chan tr2.
Proof. apply omap_app. Qed.

Lemma last_entry_id (msgs : list entry) :
  last msgs.*1 = (λ e : entry, e.1) <$> last msgs.
Proof. apply fmap_last. Qed.

Lemma consume_messages_chan k arg name msgs c chan :
  name ∈ (request k arg c).*1 →
  let r := consume_messages k arg name msgs c in
  (request k arg r.1).*1 = (request k arg c).*1
  ∧ consumed chan r.2 = (if decide (name = chan) then msgs.*1 else [])
  ∧ alist_get chan (request k arg r.1) =
      (if decide (name = chan)
       then match last msgs with
            | Some e => Some e.1
            | None => alist_get chan (request k arg c)
            end
       else alist_get chan (request k arg c))
  ∧ Forall (entry_as_coded k arg) r.2.
Proof.
  revert c. induction msgs as [|e msgs IH]; intros c Hin; simpl.
  { split_and!; try done; by destruct (decide (name = chan)). }
  assert (request k arg (advance c name e.1)
          = alist_set name e.1 (request k arg c)) as Hadv
    by by apply request_advance.
  assert ((request k arg (advance c name e.1)).*1 = (request k arg c).*1)
    as Hkeys by (rewrite Hadv; by apply alist_set_keys).
  specialize (IH (advance c name e.1)). rewrite Hkeys in IH.
  destruct (IH Hin) as (IH1 & IH2 & IH3 & IH4). clear IH.
  destruct (consume_messages k arg name msgs (advance c name e.1))
    as [c2 tr]. simpl in *.
  split_and!.
  - done.
  - unfold consumed in *. simpl.
    destruct (decide (name = chan)); simpl; by rewrite IH2.
  - rewrite IH3, Hadv. destruct (decide (name = chan)) as [->|Hne].
    + destruct msgs as [|e' msgs']; simpl; [apply alist_get_set_eq|].
      destruct (last (e' :: msgs')) eqn:Hl; [done|].
      by apply last_None in Hl.
    + by apply alist_get_set_ne.
  - by constructor.
Qed.

Lemma consume_streams_chan k arg streams c chan :
  NoDup streams.*1 →
  (∀ name, name ∈ streams.*1 → name ∈ (request k arg c).*1) →
  let r := consume_streams k arg streams c in
  (request k arg r.1).*1 = (request k arg c).*1
  ∧ consumed chan r.2 =
      match alist_get chan streams with Some msgs => msgs.*1 | None => [] end
  ∧ alist_get chan (request k arg r.1) =
      match alist_get chan streams ≫= last with
      | Some e => Some e.1
      | None => alist_get chan (request k arg c)
      end
  ∧ Forall (entry_as_coded k arg) r.2.
Proof.
  revert c. induction streams as [|[name msgs] streams IH]; intros c Hnd Hin;
    simpl; [done|].
  apply NoDup_cons in Hnd as [Hname Hnd].
  destruct (consume_messages_chan k arg name msgs c chan)
    as (M1 & M2 & M3 & M4); [apply Hin; left|].
  destruct (consume_messages k arg name msgs c) as [c1 tr1]. simpl in *.
  destruct (IH c1 Hnd) as (S1 & S2 & S3 & S4).
  { intros n Hn. rewrite M1. apply Hin. by right. }
  destruct (consume_streams k arg streams c1) as [c2 tr2]. simpl in *.
  split_and!.
  - congruence.
  - rewrite consumed_app, M2, S2.
    destruct (decide (name = chan)) as [->|Hne]; [|done].
    rewrite (alist_get_None chan streams) by done. apply app_nil_r.
  - rewrite S3, M3. destruct (decide (name = chan)) as [->|Hne]; [|done].
    rewrite (alist_get_None chan streams) by done. simpl.
    by destruct (last msgs).
  - by apply Forall_app.
Qed.

Lemma consumed_temporal_status chan k arg ts q m :
  consumed chan (temporal_status k arg ts q m) = []
  ∧ Forall (entry_as_coded k arg) (temporal_status k arg ts q m).
Proof.
  unfold temporal_status. destruct k; [|by split..].
  destruct (temporal_client m); [|by split].
  destruct q; split; by repeat constructor.
Qed.

Lemma sorted_last_bound (l : list entry_id) z x :
  StronglySorted id_lt l → last l = Some z → x ∈ l → id_le x z.
Proof.
  intros Hs [l' ->]%last_Some [Hx|Hx]%elem_of_app.
  - right.
    eapply StronglySorted_app_1_elem_of; [done..|apply list_elem_of_here].
  - apply list_elem_of_singleton in Hx as ->. by left.
Qed.

(** One successful read, seen from one stream: the ids gone through are
    new, above the cursor and increasing, and the cursor ends on the last
    of them. *)
Lemma read_turn_chan k arg c log n chan :
  NoDup (request k arg c).*1 →
  log_wf log →
  let req := request k arg c in
  let r := consume_streams k arg (xread log req n) c in
  (request k arg r.1).*1 = req.*1
  ∧ Forall (entry_as_coded k arg) r.2
  ∧ StronglySorted id_lt (consumed chan r.2)
  ∧ (∀ cur, alist_get chan req = Some cur →
       Forall (id_lt cur) (consumed chan r.2))
  ∧ (alist_get chan req = None → consumed chan r.2 = [])
  ∧ alist_get chan (request k arg r.1) =
      match last (consumed chan r.2) with
      | Some i => Some i
      | None => alist_get chan req
      end.
Proof.
  intros Hnd Hwf req r.
  destruct (consume_streams_chan k arg (xread log req n) c chan)
    as (S1 & S2 & S3 & S4).
  { eapply sublist_NoDup; [exact Hnd|apply xread_keys]. }
  { intros name Hname. eapply elem_of_sublist; [done|apply xread_keys]. }
  fold r in S1, S2, S3, S4. rewrite S2, S3.
  split; [done|]. split; [done|].
  destruct (alist_get chan (xread log req n)) as [msgs|] eqn:Hget; simpl.
  - apply xread_get in Hget as (cur & Hcur & -> & Hne); [|done].
    destruct (newer_spec cur (stream_of log chan) n) as [Hs Hall];
      [by apply log_wf_stream|].
    split_and!.
    + done.
    + intros cur' Hcur'. fold req in Hcur. by simplify_eq.
    + intros Hnone. fold req in Hcur. congruence.
    + rewrite last_entry_id. by destruct (last _).
  - split_and!; [constructor|by constructor..|done].
Qed.

Lemma initial_cursor_keys k arg : NoDup (request k arg (initial_cursor k)).*1.
Proof.
  destruct k; simpl; [apply NoDup_singleton..|].
  apply (bool_decide_unpack _). by vm_compute.
Qed.

Lemma gen_inv_nodup g :
  gen_inv g → NoDup (request (g_kind g) (g_arg g) (g_cursor g)).*1.
Proof. intros [-> _ _ _]. apply initial_cursor_keys. Qed.

Lemma gen_inv_quiet g p new :
  gen_inv g →
  (∀ chan, consumed chan new = []) →
  Forall (entry_as_coded (g_kind g) (g_arg g)) new →
  gen_inv {| g_kind := g_kind g; g_arg := g_arg g; g_cursor := g_cursor g;
             g_pc := p; g_trace := g_trace g ++ new |}.
Proof.
  intros [H1 H2 H3 H4] Hnew Hcoded. split; simpl.
  - done.
  - intros chan. rewrite consumed_app, Hnew, app_nil_r. apply H2.
  - intros chan i. rewrite consumed_app, Hnew, app_nil_r. apply H3.
  - by apply Forall_app.
Qed.

Lemma moves_forward_refl g : moves_forward g g.
Proof.
  exists []. split; [by rewrite app_nil_r|].
  intros chan cur Hcur. exists cur. split_and!; [done|done|constructor].
Qed.

Lemma moves_forward_quiet g p new :
  (∀ chan, consumed chan new = []) →
  moves_forward g
    {| g_kind := g_kind g; g_arg := g_arg g; g_cursor := g_cursor g;
       g_pc := p; g_trace := g_trace g ++ new |}.
Proof.
  intros Hnew. exists new. split; [done|].
  intros chan cur Hcur. exists cur. rewrite Hnew.
  split_and!; [done|done|constructor].
Qed.

Lemma loop_turn_inv ts r q log m g :
  gen_inv g → log_wf log →
  gen_inv (loop_turn ts r q log m g).2
  ∧ moves_forward g (loop_turn ts r q log m g).2.
Proof.
  intros Hinv Hwf. unfold loop_turn, finalize.
  destruct (is_active _ _); [destruct r|]; cbn [fst snd].
  2-4: split; [apply gen_inv_quiet|apply moves_forward_quiet];
       try done; by repeat constructor.
  pose proof (λ chan, read_turn_chan (g_kind g) (g_arg g) (g_cursor g) log
                (read_count (g_kind g)) chan (gen_inv_nodup g Hinv) Hwf)
    as Hturn.
  cbv zeta in Hturn.
  destruct (consume_streams _ _ _ _) as [c tr]. cbn [fst snd] in *.
  assert (∀ chan,
    consumed chan (Read (request (g_kind g) (g_arg g) (g_cursor g)) :: tr
      ++ temporal_status (g_kind g) (g_arg g) ts q m ++ [Sleep])
    = consumed chan tr) as Hnew.
  { intros chan. change (Read ?x :: ?t) with ([Read x] ++ t).
    rewrite !consumed_app.
    destruct (consumed_temporal_status chan (g_kind g) (g_arg g) ts q m)
      as [-> _]. simpl. apply app_nil_r. }
  split.
  - destruct Hinv as [H1 H2 H3 H4]. split; cbn [g_kind g_arg g_cursor g_trace].
    + destruct (Hturn "") as (-> & _). done.
    + intros chan. rewrite consumed_app, Hnew.
      destruct (Hturn chan) as (_ & _ & Hs & Habove & Hnone & _).
      apply StronglySorted_app. split_and!; [|done..].
      intros x1 x2 Hx1 Hx2.
      destruct (last (consumed chan (g_trace g))) as [z|] eqn:Hz;
        [|apply last_None in Hz; rewrite Hz in Hx1; by apply elem_of_nil in Hx1].
      pose proof (H3 chan z Hz) as Hcur. unfold cursor_at in Hcur.
      eapply id_le_lt_trans;
        [eapply sorted_last_bound; [apply H2|exact Hz|exact Hx1]|].
      specialize (Habove z Hcur). rewrite Forall_forall in Habove. auto.
    + intros chan i. rewrite consumed_app, Hnew. unfold cursor_at.
      cbn [g_kind g_arg g_cursor].
      destruct (Hturn chan) as (_ & _ & _ & _ & _ & ->).
      rewrite last_app. destruct (last (consumed chan tr)); [done|].
      apply H3.
    + apply Forall_app. split; [done|]. constructor; [done|].
      destruct (Hturn "") as (_ & Hc & _).
      apply Forall_app. split; [done|]. apply Forall_app. split.
      * apply (consumed_temporal_status "").
      * by repeat constructor.
  - eexists. split; [done|]. cbn [g_trace].
    intros chan cur Hcur. unfold cursor_at in *. cbn [g_kind g_arg g_cursor].
    rewrite Hnew.
    destruct (Hturn chan) as (_ & _ & _ & Habove & _ & ->).
    specialize (Habove cur Hcur).
    destruct (last (consumed chan tr)) as [z|] eqn:Hz.
    + exists z. split_and!; [done| |done].
      right. rewrite Forall_forall in Habove. apply Habove.
      by apply last_Some_elem_of.
    + by exists cur.
Qed.

Lemma moves_forward_trans g1 g2 g3 :
  moves_forward g1 g2 → moves_forward g2 g3 → moves_forward g1 g3.
Proof.
  intros (new1 & Ht1 & H1) (new2 & Ht2 & H2). exists (new1 ++ new2).
  split; [by rewrite Ht2, Ht1, app_assoc|].
  intros chan cur Hcur.
  destruct (H1 chan cur Hcur) as (cur1 & Hcur1 & Hle1 & Hall1).
  destruct (H2 chan cur1 Hcur1) as (cur2 & Hcur2 & Hle2 & Hall2).
  exists cur2. split_and!; [done|by etrans|].
  rewrite consumed_app. apply Forall_app. split; [done|].
  eapply Forall_impl; [done|]. intros x Hx. by eapply id_le_lt_trans.
Qed.

Lemma start_inv k arg ts m : gen_inv (start k arg ts m).2.
Proof.
  unfold start. destruct (negb _); split; simpl;
    try done; try (by repeat constructor).
Qed.

Lemma step_gen w a i g :
  log_wf (w_log w) → gen_inv g → w_gens w !! i = Some g →
  ∃ g', w_gens (step w a) !! i = Some g' ∧ gen_inv g' ∧ moves_forward g g'.
Proof.
  intros Hwf Hinv Hi.
  assert (∃ g', Some g = Some g' ∧ gen_inv g' ∧ moves_forward g g') as Hsame
    by (exists g; auto using moves_forward_refl).
  destruct a as [| | |k arg ts|j ts r q|]; simpl; try by rewrite Hi.
  - by rewrite (lookup_app_l_Some _ _ _ _ Hi).
  - destruct (w_gens w !! j) as [gj|] eqn:Hj; [|by rewrite Hi].
    destruct (g_pc gj) eqn:Hpj; [|by rewrite Hi]. simpl.
    destruct (decide (j = i)) as [->|Hne].
    + rewrite list_lookup_insert_eq by by eapply lookup_lt_Some.
      assert (gj = g) as -> by congruence.
      eexists. split; [done|]. by apply loop_turn_inv.
    + rewrite list_lookup_insert_ne by done. by rewrite Hi.
Qed.

Lemma reachable_inv w :
  reachable w → log_wf (w_log w) ∧ Forall gen_inv (w_gens w).
Proof.
  revert w. apply reachable_ind.
  - intros w [-> Hwf]. by split.
  - intros w a _ [Hwf Hall]. split; [by apply step_log_wf|].
    apply Forall_lookup. intros i g' Hi.
    destruct a as [| | |k arg ts|j ts r q|]; simpl in Hi;
      try by eapply (proj1 (Forall_lookup _ _) Hall).
    + apply lookup_app_Some in Hi as [Hi|[_ Hi]];
        [by eapply (proj1 (Forall_lookup _ _) Hall)|].
      apply list_lookup_singleton_Some in Hi as [_ <-]. apply start_inv.
    + destruct (w_gens w !! j) as [gj|] eqn:Hj;
        [|by eapply (proj1 (Forall_lookup _ _) Hall)].
      destruct (g_pc gj) eqn:Hpj;
        [|by eapply (proj1 (Forall_lookup _ _) Hall)].
      simpl in Hi. destruct (decide (j = i)) as [->|Hne].
      * rewrite list_lookup_insert_eq in Hi by by eapply lookup_lt_Some.
        injection Hi as <-. apply loop_turn_inv; [|done].
        by eapply (proj1 (Forall_lookup _ _) Hall).
      * rewrite list_lookup_insert_ne in Hi by done.
        by eapply (proj1 (Forall_lookup _ _) Hall).
Qed.

Lemma run_gen w acts i g :
  reachable w → w_gens w !! i = Some g →
  ∃ g', w_gens (run w acts) !! i = Some g' ∧ gen_inv g' ∧ moves_forward g g'.
Proof.
  intros Hw Hi. induction acts as [|a acts IH] using rev_ind.
  - exists g. destruct (reachable_inv w Hw) as [_ Hall].
    split_and!; [done| |apply moves_forward_refl].
    by eapply (proj1 (Forall_lookup _ _) Hall).
  - destruct IH as (g1 & Hg1 & Hinv1 & Hfw1). rewrite run_snoc.
    assert (reachable (run w acts)) as Hw1.
    { destruct Hw as (w0 & acts0 & Hw0 & ->). exists w0, (acts0 ++ acts).
      by rewrite run_app. }
    destruct (step_gen (run w acts) a i g1) as (g2 & Hg2 & Hinv2 & Hfw2);
      [by apply reachable_inv|done..|].
    exists g2. split_and!; [done..|]. by eapply moves_forward_trans.
Qed.

Lemma delivered_sublist chan tr :
  delivered chan tr `sublist_of` consumed chan tr.
Proof.
  induction tr as [|ef tr IH]; [done|].
  unfold delivered, consumed in *. simpl.
  destruct ef as [|name e [m|]| | |]; simpl; try done;
    destruct (decide (name = chan)); simpl; try done;
    first [by apply sublist_skip|by apply sublist_cons].
Qed.

Lemma StronglySorted_sublist (l1 l2 : list entry_id) :
  l1 `sublist_of` l2 → StronglySorted id_lt l2 → StronglySorted id_lt l1.
Proof.
  intros Hsub. induction Hsub as [|x l1 l2 Hsub IH|x l1 l2 Hsub IH];
    intros Hs; [done|..].
  - apply StronglySorted_cons in Hs as [Hx Hs].
    apply StronglySorted_cons. split; [|by apply IH].
    rewrite Forall_forall in *. intros y Hy. apply Hx.
    by eapply elem_of_sublist.
  - apply StronglySorted_cons in Hs as [_ Hs]. by apply IH.
Qed.

Lemma Forall_sublist_ids (P : entry_id → Prop) l1 l2 :
  l1 `sublist_of` l2 → Forall P l2 → Forall P l1.
Proof.
  intros Hsub Hall. rewrite Forall_forall in *. intros x Hx.
  apply Hall. by eapply elem_of_sublist.
Qed.

(** C2.  From any point of any run on: the cursor a generator holds for a
    stream never goes back; every entry it delivers from then on has an id
    above the cursor it held, so nothing at or below the cursor comes
    again; the ids delivered on the stream over the whole life of the
    generator increase strictly.  The same holds of all entries gone
    through, delivered or filtered out. *)
Theorem cursor_and_deliveries_monotone (w : world) (acts : list action)
    (i : nat) (g : gen) (chan : string) (cur : entry_id) :
  reachable w →
  w_gens w !! i = Some g →
  cursor_at g chan = Some cur →
  ∃ g' new cur',
    w_gens (run w acts) !! i = Some g'
    ∧ g_trace g' = g_trace g ++ new
    ∧ cursor_at g' chan = Some cur'
    ∧ id_le cur cur'
    ∧ Forall (id_lt cur) (delivered chan new)
    ∧ Forall (id_lt cur) (consumed chan new)
    ∧ StronglySorted id_lt (delivered chan (g_trace g'))
    ∧ StronglySorted id_lt (consumed chan (g_trace g')).
Proof.
  intros Hw Hi Hcur.
  destruct (run_gen w acts i g Hw Hi) as (g' & Hg' & Hinv & new & Htr & Hfw).
  destruct (Hfw chan cur Hcur) as (cur' & Hcur' & Hle & Hall).
  exists g', new, cur'. split_and!; try done.
  - eapply Forall_sublist_ids; [apply delivered_sublist|done].
  - eapply StronglySorted_sublist; [apply delivered_sublist|].
    apply (inv_sorted g' Hinv).
  - apply (inv_sorted g' Hinv).
Qed.

Lemma cursor_and_deliveries_monotone_witness :
  let w := run (boot true true)
    [ Attach Workflow "wf" "t0";
      Xadd "wf:progress" {[ "step" := "parse" ]} 5;
      Resume 0 "t1" ReadOk QNotFound ] in
  let acts :=
    [ Xadd "wf:progress" {[ "step" := "embed" ]} 5;
      Xadd "wf:progress" {[ "step" := "done" ]} 9;
      Resume 0 "t2" ReadOk QNotFound ] in
  ∃ g', w_gens (run w acts) !! 0 = Some g'
    ∧ cursor_at g' "wf:progress" = Some (9%N, 0%N)
    ∧ delivered "wf:progress" (g_trace g')
      = [ (5%N, 0%N); (5%N, 1%N); (9%N, 0%N) ].
Proof.
  intros w acts.
  destruct (w_gens w !! 0) as [g|] eqn:Hg; [|vm_compute in Hg; discriminate Hg].
  assert (cursor_at g "wf:progress" = Some (5%N, 0%N)) as Hcur.
  { vm_compute in Hg. injection Hg as <-. vm_compute. reflexivity. }
  destruct (cursor_and_deliveries_monotone w acts 0 g "wf:progress"
              (5%N, 0%N) (reachable_boot _ _ _) Hg Hcur)
    as (g' & new & cur' & Hg' & _).
  exists g'. split; [exact Hg'|].
  vm_compute in Hg'. injection Hg' as <-. split; vm_compute; reflexivity.
Defined.

(** ** The user filter *)

(** C5.  In a merged per-user stream, an entry gone through is yielded
    exactly when [_is_user_event] holds of it; yielded or not, the cursor
    of its stream is set to its id, so that the cursor of a stream is
    always the id of the last entry gone through on it; and the ids gone
    through on a stream, filtered out or not, increase strictly over the
    whole life of the stream, so no entry is read twice. *)
Theorem user_filter_and_cursor (w : world) (i : nat) (g : gen) :
  reachable w →
  w_gens w !! i = Some g →
  g_kind g = Global →
  (∀ name e m, Entry name e m ∈ g_trace g →
     (is_Some m ↔ _is_user_event e.2 (g_arg g) = true)
     ∧ m = if _is_user_event e.2 (g_arg g)
           then Some (_format_sse_message
                        (get_or e.2 "event_type" "notification") e.2)
           else None)
  ∧ (∀ chan id, last (consumed chan (g_trace g)) = Some id →
       cursor_at g chan = Some id)
  ∧ (∀ chan, StronglySorted id_lt (consumed chan (g_trace g))).
Proof.
  intros Hw Hi Hk. destruct (reachable_inv w Hw) as [_ Hall].
  rewrite Forall_lookup in Hall. destruct (Hall i g Hi) as [_ H2 H3 H4].
  split_and!; [|done..].
  intros name e m Hin. rewrite Forall_forall in H4.
  specialize (H4 _ Hin). simpl in H4. rewrite Hk in H4. simpl in H4.
  subst m. destruct (_is_user_event e.2 (g_arg g)); (split; [|done]).
  - split; [done|]. intros _. by eexists.
  - split; [by intros [? ?]|done].
Qed.

Lemma user_filter_and_cursor_witness :
  let mine := {[ "user_id" := "u1"; "event_type" := "note" ]} : fields in
  let other := {[ "user_id" := "u2"; "event_type" := "note" ]} : fields in
  let w := run (boot true true)
    [ Attach Global "u1" "t0";
      Xadd "pip-ai:notifications" mine 5;
      Xadd "pip-ai:notifications" other 6;
      Xadd "pip-ai:notifications" mine 7;
      Resume 0 "t1" ReadOk QNotFound;
      Resume 0 "t2" ReadOk QNotFound ] in
  ∃ g, w_gens w !! 0 = Some g
    ∧ consumed "pip-ai:notifications" (g_trace g)
      = [ (5%N, 0%N); (6%N, 0%N); (7%N, 0%N) ]
    ∧ delivered "pip-ai:notifications" (g_trace g)
      = [ (5%N, 0%N); (7%N, 0%N) ]
    ∧ cursor_at g "pip-ai:notifications" = Some (7%N, 0%N).
Proof.
  intros mine other w.
  destruct (w_gens w !! 0) as [g|] eqn:Hg; [|vm_compute in Hg; discriminate Hg].
  assert (g_kind g = Global) as Hk.
  { vm_compute in Hg. injection Hg as <-. reflexivity. }
  destruct (user_filter_and_cursor w 0 g (reachable_boot _ _ _) Hg Hk)
    as (_ & Hcur & _).
  exists g. split; [done|].
  assert (consumed "pip-ai:notifications" (g_trace g)
          = [ (5%N, 0%N); (6%N, 0%N); (7%N, 0%N) ]) as Hc.
  { vm_compute in Hg. injection Hg as <-. vm_compute. reflexivity. }
  split; [exact Hc|]. split.
  - vm_compute in Hg. injection Hg as <-. vm_compute. reflexivity.
  - apply Hcur. rewrite Hc. reflexivity.
Defined.

(** ** Two generators on one id *)

Lemma single_request g :
  gen_inv g → g_kind g ≠ Global →
  ∃ cur, request (g_kind g) (g_arg g) (g_cursor g)
         = [(stream_key (g_kind g) (g_arg g), cur)].
Proof.
  intros [Hkeys _ _ _] Hk.
  assert ((request (g_kind g) (g_arg g) (initial_cursor (g_kind g))).*1
          = [stream_key (g_kind g) (g_arg g)]) as Hinit
    by by destruct (g_kind g).
  rewrite Hinit in Hkeys.
  destruct (request _ _ (g_cursor g)) as [|[key cur] [|? ?]]; try done.
  injection Hkeys as ->. by exists cur.
Qed.

Lemma delivered_all k arg chan tr :
  k ≠ Global → Forall (entry_as_coded k arg) tr →
  delivered chan tr = consumed chan tr.
Proof.
  intros Hk. induction 1 as [|ef tr Hef _ IH]; [done|].
  change (ef :: tr) with ([ef] ++ tr).
  unfold delivered in *. rewrite omap_app, IH, consumed_app. f_equal.
  destruct ef as [|name e m| | |]; try done.
  simpl in Hef. subst m. by destruct k.
Qed.

Lemma resume_other w i j ts r q :
  i ≠ j → w_gens (step w (Resume i ts r q)) !! j = w_gens w !! j.
Proof.
  intros Hne. simpl. destruct (w_gens w !! i) as [g|]; [|done].
  destruct (g_pc g); [|done]. simpl. by apply list_lookup_insert_ne.
Qed.

Lemma single_turn_batch k arg c log n chan cur :
  request k arg c = [(chan, cur)] →
  let batch := take n (newer cur (stream_of log chan)) in
  let r := consume_streams k arg (xread log [(chan, cur)] n) c in
  consumed chan r.2 = batch.*1
  ∧ alist_get chan (request k arg r.1) = Some (default cur (last batch.*1)).
Proof.
  intros Hreq batch r.
  destruct (consume_streams_chan k arg (xread log [(chan, cur)] n) c chan)
    as (_ & S2 & S3 & _).
  { eapply sublist_NoDup; [|apply xread_keys]. simpl. apply NoDup_singleton. }
  { intros name Hname. rewrite Hreq.
    eapply elem_of_sublist; [done|apply xread_keys]. }
  fold r in S2, S3. rewrite S2, S3, Hreq. unfold xread. simpl. fold batch.
  rewrite last_entry_id. clearbody batch.
  destruct batch as [|e es]; simpl.
  - by rewrite decide_True.
  - rewrite decide_True by done. simpl.
    destruct (last (e :: es)) eqn:Hl; [done|]. by apply last_None in Hl.
Qed.

Lemma loop_turn_exhausted_key ts r q log m g :
  g_pc (loop_turn ts r q log m g).2 = Exhausted →
  active_streams (loop_turn ts r q log m g).1
    !! registry_key (g_kind g) (g_arg g) = None.
Proof.
  unfold loop_turn, finalize.
  destruct (is_active _ _); [destruct r|]; simpl;
    try destruct (consume_streams _ _ _ _); simpl; try done;
    intros _; apply lookup_delete_eq.
Qed.

(** C8, as the code has it.  Two generators attached to the same workflow
    or file id read the same stream, each from its own cursor: a turn of
    one delivers the entries of the stream above its own cursor, each
    once, in increasing order, and leaves the other generator and the
    registry as they were.  Their lives are tied, though: both sit under
    the one registry key, so when one of them ends, the key is gone and
    the other ends at its next turn, whatever its own read would do. *)
Theorem two_subscribers_one_channel (w : world) (i j : nat) (gi gj : gen)
    (ts : string) (q : query_outcome) :
  reachable w →
  i ≠ j →
  w_gens w !! i = Some gi →
  w_gens w !! j = Some gj →
  g_pc gi = InLoop →
  g_pc gj = InLoop →
  g_kind gi ≠ Global →
  registry_key (g_kind gj) (g_arg gj) = registry_key (g_kind gi) (g_arg gi) →
  is_active (w_mgr w) (registry_key (g_kind gi) (g_arg gi)) = true →
  let chan := stream_key (g_kind gi) (g_arg gi) in
  let w1 := step w (Resume i ts ReadOk q) in
  let w2 := step w (Resume i ts ReadConnectionError q) in
  (∃ cur gi',
      cursor_at gi chan = Some cur
      ∧ w_gens w1 !! i = Some gi'
      ∧ g_pc gi' = InLoop
      ∧ let batch := (take 10 (newer cur (stream_of (w_log w) chan))).*1 in
        delivered chan (g_trace gi') = delivered chan (g_trace gi) ++ batch
        ∧ cursor_at gi' chan = Some (default cur (last batch))
        ∧ StronglySorted id_lt (delivered chan (g_trace gi')))
  ∧ w_gens w1 !! j = Some gj
  ∧ w_mgr w1 = w_mgr w
  ∧ w_gens w2 !! j = Some gj
  ∧ is_active (w_mgr w2) (registry_key (g_kind gj) (g_arg gj)) = false
  ∧ ∀ ts' r' q', ∃ gj',
      w_gens (step w2 (Resume j ts' r' q')) !! j = Some gj'
      ∧ g_pc gj' = Exhausted
      ∧ output gj' = output gj ++ [disconnected_msg (g_kind gj) (g_arg gj) ts'].
Proof.
  intros Hw Hij Hi Hj Hpi Hpj Hk Hkey Hact chan w1 w2.
  destruct (reachable_inv w Hw) as [Hwf Hall]. rewrite Forall_lookup in Hall.
  pose proof (Hall i gi Hi) as Hinv.
  assert (i < length (w_gens w)) as Hlt by by eapply lookup_lt_Some.
  split_and!.
  - destruct (single_request gi Hinv Hk) as [cur Hreq]. fold chan in Hreq.
    assert (w_gens w1 !! i = Some (loop_turn ts ReadOk q (w_log w) (w_mgr w) gi).2)
      as Hi1.
    { subst w1. simpl. rewrite Hi, Hpi. simpl.
      by apply list_lookup_insert_eq. }
    assert (gen_inv (loop_turn ts ReadOk q (w_log w) (w_mgr w) gi).2) as Hinv1
      by by apply loop_turn_inv.
    rewrite (loop_turn_ok _ _ _ _ _ Hact) in Hi1, Hinv1.
    cbn [snd] in Hi1, Hinv1. eexists cur, _.
    pose proof (single_turn_batch (g_kind gi) (g_arg gi) (g_cursor gi)
                  (w_log w) (read_count (g_kind gi)) chan cur Hreq) as Hb.
    cbv zeta in Hb. rewrite Hreq in *.
    assert (read_count (g_kind gi) = 10) as Hcount by by destruct (g_kind gi).
    rewrite Hcount in *. destruct Hb as [Hb1 Hb2].
    cbv zeta. split_and!.
    + unfold cursor_at. rewrite Hreq. simpl. by rewrite decide_True.
    + exact Hi1.
    + done.
    + rewrite !(delivered_all (g_kind gi) (g_arg gi)); try done;
        [|apply (inv_entries _ Hinv)|apply (inv_entries _ Hinv1)].
      cbn [g_trace]. rewrite consumed_app. f_equal.
      change (Read ?x :: ?t) with ([Read x] ++ t). rewrite !consumed_app.
      destruct (consumed_temporal_status chan (g_kind gi) (g_arg gi) ts q
                  (w_mgr w)) as [-> _].
      rewrite Hb1. simpl. by rewrite app_nil_r.
    + exact Hb2.
    + eapply StronglySorted_sublist; [apply delivered_sublist|].
      apply (inv_sorted _ Hinv1).
  - subst w1. by rewrite resume_other.
  - subst w1. simpl. rewrite Hi, Hpi. simpl.
    by rewrite (loop_turn_ok _ _ _ _ _ Hact).
  - subst w2. by rewrite resume_other.
  - subst w2. simpl. rewrite Hi, Hpi. simpl. unfold is_active.
    rewrite Hkey, loop_turn_exhausted_key; [done|].
    by rewrite (loop_turn_connection_error _ _ _ _ _ Hact).
  - intros ts' r' q'.
    assert (w_gens w2 !! j = Some gj) as Hj2
      by (subst w2; by rewrite resume_other).
    assert (is_active (w_mgr w2) (registry_key (g_kind gj) (g_arg gj)) = false)
      as Hoff.
    { subst w2. simpl. rewrite Hi, Hpi. simpl. unfold is_active.
      rewrite Hkey, loop_turn_exhausted_key; [done|].
      by rewrite (loop_turn_connection_error _ _ _ _ _ Hact). }
    simpl. rewrite Hj2, Hpj. simpl.
    rewrite (loop_turn_stopped _ _ _ _ _ _ Hoff). cbn [snd].
    eexists. split; [apply list_lookup_insert_eq; by eapply lookup_lt_Some|].
    split; [done|]. unfold output at 1. cbn [g_trace]. by rewrite output_app.
Qed.

Lemma two_subscribers_one_channel_witness :
  let w := run (boot true true)
    [ Attach Workflow "wf" "t0"; Attach Workflow "wf" "t1";
      Xadd "wf:progress" {[ "step" := "parse" ]} 5 ] in
  let w1 := step w (Resume 0 "t2" ReadOk QNotFound) in
  let w2 := step w (Resume 0 "t2" ReadConnectionError QNotFound) in
  (∃ gi', w_gens w1 !! 0 = Some gi'
     ∧ delivered "wf:progress" (g_trace gi') = [ (5%N, 0%N) ]
     ∧ cursor_at gi' "wf:progress" = Some (5%N, 0%N))
  ∧ w_gens w1 !! 1 = w_gens w !! 1
  ∧ is_active (w_mgr w2) "wf" = false.
Proof.
  intros w w1 w2.
  destruct (w_gens w !! 0) as [gi|] eqn:Hgi; [|vm_compute in Hgi; discriminate Hgi].
  destruct (w_gens w !! 1) as [gj|] eqn:Hgj; [|vm_compute in Hgj; discriminate Hgj].
  assert (Egi := Hgi). vm_compute in Egi. injection Egi as Egi.
  assert (Egj := Hgj). vm_compute in Egj. injection Egj as Egj.
  subst gi gj.
  destruct (two_subscribers_one_channel w 0 1 _ _ "t2" QNotFound
              (reachable_boot _ _ _) (O_S 0) Hgi Hgj eq_refl eq_refl)
    as ((cur & gi' & Hcur & Hgi' & _ & Hdel & Hcur' & _)
        & Hj1 & _ & _ & Hoff & _).
  - discriminate.
  - reflexivity.
  - vm_compute. reflexivity.
  - vm_compute in Hcur. injection Hcur as <-.
    split_and!; [|exact Hj1|exact Hoff].
    exists gi'. split; [exact Hgi'|]. split.
    + etrans; [exact Hdel|]. vm_compute. reflexivity.
    + etrans; [exact Hcur'|]. vm_compute. reflexivity.
Defined.

(** C8, as the claim has it, fails: two generators attach to workflow
    [wf]; one entry is added and each delivers it once; then the read of
    the first raises [ConnectionError] and that generator ends.  Nobody
    stopped the second and its own read is fine, yet at its next turn it
    ends too, on [disconnected]. *)
Lemma shared_registry_key_counterexample :
  let w := run (boot true true)
    [ Attach Workflow "wf" "t0"; Attach Workflow "wf" "t1";
      Xadd "wf:progress" {[ "step" := "parse" ]} 5;
      Resume 0 "t2" ReadOk QNotFound;
      Resume 1 "t3" ReadOk QNotFound;
      Resume 0 "t4" ReadConnectionError QNotFound;
      Resume 1 "t5" ReadOk QNotFound ] in
  (λ g, delivered "wf:progress" (g_trace g)) <$> w_gens w
    = [ [ (5%N, 0%N) ]; [ (5%N, 0%N) ] ]
  ∧ g_pc <$> w_gens w = [ Exhausted; Exhausted ]
  ∧ (output <$> w_gens w !! 1) ≫= last
    = Some (disconnected_msg Workflow "wf" "t5").
Proof. split_and!; vm_compute; reflexivity. Qed.

(** * Further properties of the relay *)

(** ** Stopping and attaching *)

(** Once [stop_stream] has been called on its key, the next turn of a
    generator is its last: without reading Redis it yields
    [disconnected], and the key leaves the registry. *)
Theorem stop_ends_stream (w : world) (i : nat) (g : gen) (ts : string)
    (r : read_outcome) (q : query_outcome) :
  w_gens w !! i = Some g →
  g_pc g = InLoop →
  let key := registry_key (g_kind g) (g_arg g) in
  let w' := step (step w (Stop key)) (Resume i ts r q) in
  ∃ g', w_gens w' !! i = Some g'
    ∧ g_pc g' = Exhausted
    ∧ g_cursor g' = g_cursor g
    ∧ g_trace g' = g_trace g ++ [Emit (disconnected_msg (g_kind g) (g_arg g) ts)]
    ∧ active_streams (w_mgr w') !! key = None
    ∧ w_log w' = w_log w.
Proof.
  intros Hi Hpc key w'. subst w'. cbn [step w_gens w_mgr w_log].
  rewrite Hi, Hpc.
  assert (is_active (stop_stream key (w_mgr w))
            (registry_key (g_kind g) (g_arg g)) = false) as Hoff.
  { unfold is_active, stop_stream. simpl. by rewrite lookup_insert_eq. }
  rewrite (loop_turn_stopped _ _ _ _ _ _ Hoff). cbn [fst snd w_gens w_mgr w_log].
  eexists. split; [apply list_lookup_insert_eq; by eapply lookup_lt_Some|].
  split_and!; try done. simpl. apply lookup_delete_eq.
Qed.

Lemma stop_ends_stream_witness :
  let w := run (boot true true)
             [Attach File "abc" "t0"; Resume 0 "t1" ReadOk QNotFound] in
  ∃ g', w_gens (step (step w (Stop "abc")) (Resume 0 "t2" ReadOk QNotFound))
          !! 0 = Some g'
    ∧ g_pc g' = Exhausted.
Proof.
  intros w.
  destruct (w_gens w !! 0) as [g|] eqn:Hg; [|vm_compute in Hg; discriminate Hg].
  assert (Eg := Hg). vm_compute in Eg. injection Eg as Eg. subst g.
  destruct (stop_ends_stream w 0 _ "t2" ReadOk QNotFound Hg eq_refl)
    as (g' & Hg' & Hpc & _).
  by exists g'.
Defined.

(** A stop is not sticky: if a client attaches under the same key before
    the stopped generator reaches its loop test, the flag is [True]
    again and the stopped generator goes on reading. *)
Theorem attach_revives_stopped_stream (w : world) (i : nat) (g : gen)
    (k : kind) (arg ts ts' : string) (q : query_outcome) :
  w_gens w !! i = Some g →
  g_pc g = InLoop →
  redis_client (w_mgr w) = true →
  registry_key k arg = registry_key (g_kind g) (g_arg g) →
  let key := registry_key (g_kind g) (g_arg g) in
  let w' := step (step (step w (Stop key)) (Attach k arg ts))
                 (Resume i ts' ReadOk q) in
  ∃ g', w_gens w' !! i = Some g'
    ∧ g_pc g' = InLoop
    ∧ is_active (w_mgr w') key = true.
Proof.
  intros Hi Hpc Hredis Hkey key w'. subst w'.
  cbn [step w_gens w_mgr w_log].
  assert (start k arg ts (stop_stream key (w_mgr w)) =
          (with_active_streams
             (<[registry_key k arg := true]>
                (active_streams (stop_stream key (w_mgr w))))
             (stop_stream key (w_mgr w)),
           {| g_kind := k; g_arg := arg; g_cursor := initial_cursor k;
              g_pc := InLoop; g_trace := [Emit (connected_msg k arg ts)] |}))
    as Hstart.
  { unfold start. simpl. by rewrite Hredis. }
  rewrite Hstart. cbn [fst snd].
  rewrite (lookup_app_l_Some _ _ _ _ Hi), Hpc.
  match goal with |- context [loop_turn ts' ReadOk q ?l ?m g] =>
    assert (is_active m (registry_key (g_kind g) (g_arg g)) = true) as Hon
  end.
  { unfold is_active. simpl. by rewrite Hkey, lookup_insert_eq. }
  rewrite (loop_turn_ok _ _ _ _ _ Hon). cbn [fst snd w_gens w_mgr].
  eexists. split.
  { apply list_lookup_insert_eq. rewrite length_app.
    apply lookup_lt_Some in Hi. lia. }
  split; [done|]. exact Hon.
Qed.

Lemma attach_revives_stopped_stream_witness :
  let w := run (boot true true) [Attach Workflow "wf" "t0"] in
  ∃ g', w_gens (step (step (step w (Stop "wf")) (Attach Workflow "wf" "t1"))
                  (Resume 0 "t2" ReadOk QNotFound)) !! 0 = Some g'
    ∧ g_pc g' = InLoop.
Proof.
  intros w.
  destruct (w_gens w !! 0) as [g|] eqn:Hg; [|vm_compute in Hg; discriminate Hg].
  assert (Eg := Hg). vm_compute in Eg. injection Eg as Eg. subst g.
  destruct (attach_revives_stopped_stream w 0 _ Workflow "wf" "t1" "t2"
              QNotFound Hg eq_refl eq_refl eq_refl)
    as (g' & Hg' & Hpc & _).
  by exists g'.
Defined.

(** Attaching registers the key of the stream as [True] and touches no
    other key; the count the health endpoint reports grows by one only if
    the key was not there, so two clients on the same id count as one. *)
Theorem attach_registers_key_once (k : kind) (arg ts ts' : string)
    (m : StreamManager) :
  redis_client m = true →
  let m' := (start k arg ts m).1 in
  is_active m' (registry_key k arg) = true
  ∧ h_active_streams (stream_health ts' m') =
      match active_streams m !! registry_key k arg with
      | Some _ => h_active_streams (stream_health ts' m)
      | None => S (h_active_streams (stream_health ts' m))
      end
  ∧ ∀ key, key ≠ registry_key k arg →
      active_streams m' !! key = active_streams m !! key.
Proof.
  intros Hredis m'. subst m'. unfold start. rewrite Hredis.
  cbn [negb fst]. unfold is_active. simpl. split_and!.
  - by rewrite lookup_insert_eq.
  - rewrite map_size_insert.
    by destruct (active_streams m !! registry_key k arg).
  - intros key Hne. by rewrite lookup_insert_ne.
Qed.

Lemma attach_registers_key_once_witness :
  let m := w_mgr (run (boot true true) [Attach Workflow "wf" "t0"]) in
  h_active_streams (stream_health "t" (start Workflow "wf" "t1" m).1) = 1.
Proof.
  intros m.
  destruct (attach_registers_key_once Workflow "wf" "t1" "t" m eq_refl)
    as (_ & Hcount & _).
  rewrite Hcount. vm_compute. reflexivity.
Defined.

(** ** Errors that do not end a stream *)

(** An exception of [xread] other than [ConnectionError] ends nothing
    and moves nothing: after [n] such turns in a row the generator is
    still in its loop with the cursor it had, it has yielded [n] [error]
    events, and it has not slept once in between. *)
Theorem read_errors_keep_looping (n : nat) (w : world) (i : nat) (g : gen)
    (ts msg : string) (q : query_outcome) :
  w_gens w !! i = Some g →
  g_pc g = InLoop →
  is_active (w_mgr w) (registry_key (g_kind g) (g_arg g)) = true →
  let w' := run w (replicate n (Resume i ts (ReadRaises msg) q)) in
  let req := request (g_kind g) (g_arg g) (g_cursor g) in
  w_mgr w' = w_mgr w
  ∧ w_gens w' !! i =
      Some {| g_kind := g_kind g; g_arg := g_arg g; g_cursor := g_cursor g;
              g_pc := InLoop;
              g_trace := g_trace g ++
                mjoin (replicate n
                         [Read req; Emit (error_msg (g_kind g) msg ts)]) |}.
Proof.
  intros Hi Hpc Hact w' req. subst w'.
  induction n as [|n [IHm IHg]].
  - simpl. split; [done|]. rewrite Hi, app_nil_r. by destruct g; simplify_eq/=.
  - rewrite replicate_S_end, run_snoc.
    cbn [step]. rewrite IHg. cbn [g_pc].
    unfold loop_turn. cbn [g_kind g_arg g_cursor g_trace]. rewrite IHm, Hact.
    cbn [fst snd w_mgr w_gens]. split; [done|].
    rewrite list_lookup_insert_eq
      by (apply lookup_lt_Some in IHg; exact IHg).
    do 2 f_equal. rewrite replicate_S_end, join_app. simpl.
    by rewrite <- !app_assoc.
Qed.

Lemma read_errors_keep_looping_witness :
  let w := run (boot true true) [Attach Global "u1" "t0"] in
  ∃ g', w_gens (run w (replicate 3
                         (Resume 0 "t1" (ReadRaises "timeout") QNotFound)))
          !! 0 = Some g'
    ∧ g_pc g' = InLoop
    ∧ length (output g') = 4.
Proof.
  intros w.
  destruct (w_gens w !! 0) as [g|] eqn:Hg; [|vm_compute in Hg; discriminate Hg].
  assert (Eg := Hg). vm_compute in Eg. injection Eg as Eg. subst g.
  destruct (read_errors_keep_looping 3 w 0 _ "t1" "timeout" QNotFound
              Hg eq_refl) as [_ Hg'].
  { vm_compute. reflexivity. }
  eexists. split; [exact Hg'|]. split; vm_compute; reflexivity.
Defined.

(** ** How much one turn can yield *)

Lemma length_entry_messages k arg es :
  (length (entry_messages k arg es) ≤ length es)%nat.
Proof.
  unfold entry_messages. induction es as [|e es IH]; [done|].
  change (e :: es) with ([e] ++ es). rewrite omap_app, !length_app.
  simpl. destruct (entry_message k arg e); simpl; lia.
Qed.

Lemma length_reply_entries log req n :
  (length (reply_entries (xread log req n)) ≤ n * length req)%nat.
Proof.
  unfold reply_entries, xread.
  induction req as [|[key cur] req IH]; [simpl; lia|].
  change ((key, cur) :: req) with ([(key, cur)] ++ req).
  rewrite omap_app, bind_app, !length_app. simpl length at 3.
  pose proof (length_take (newer cur (stream_of log key)) n) as Ht.
  assert (length (omap (λ '(key0, cur0),
            match take n (newer cur0 (stream_of log key0)) with
            | [] => None
            | msgs => Some (key0, msgs)
            end) [(key, cur)] ≫= snd) ≤ n)%nat as Hhead.
  { simpl. destruct (take n (newer cur (stream_of log key))) as [|e es];
      simpl in *; [lia|]. rewrite app_nil_r. simpl. lia. }
  lia.
Qed.

Lemma length_temporal_status k arg ts q m :
  (length (omap yielded (temporal_status k arg ts q m)) ≤ 1)%nat.
Proof.
  unfold temporal_status. destruct k; simpl; try lia.
  destruct (temporal_client m); simpl; [|lia]. destruct q; simpl; lia.
Qed.

(** Whatever Redis holds, one turn of a generator yields at most [count]
    events for each stream it reads and two more: ten and two for a
    workflow or file stream, twenty and two for a user stream. *)
Theorem turn_yields_bounded (w : world) (i : nat) (g : gen) (ts : string)
    (r : read_outcome) (q : query_outcome) :
  reachable w →
  w_gens w !! i = Some g →
  ∃ g', w_gens (step w (Resume i ts r q)) !! i = Some g'
    ∧ (length (output g') ≤ length (output g) +
        match g_kind g with Workflow | File => 12 | Global => 22 end)%nat.
Proof.
  intros Hw Hi. destruct (reachable_inv w Hw) as [_ Hall].
  rewrite Forall_lookup in Hall. pose proof (Hall i g Hi) as Hinv.
  assert (read_count (g_kind g)
            * length (request (g_kind g) (g_arg g) (g_cursor g)) + 2
          = match g_kind g with Workflow | File => 12 | Global => 22 end)
    as <-.
  { rewrite <- (length_fmap fst), (inv_keys g Hinv), length_fmap.
    by destruct (g_kind g). }
  cbn [step]. rewrite Hi. destruct (g_pc g) eqn:Hpc;
    [|exists g; split; [done|lia]].
  cbn [w_gens snd].
  eexists. split; [apply list_lookup_insert_eq; by eapply lookup_lt_Some|].
  unfold loop_turn, finalize.
  destruct (is_active _ _); [destruct r|]; cbn [fst snd].
  - pose proof (consume_streams_yields (g_kind g) (g_arg g)
      (xread (w_log w) (request (g_kind g) (g_arg g) (g_cursor g))
         (read_count (g_kind g))) (g_cursor g)) as Hy.
    destruct (consume_streams _ _ _ _) as [c tr]. cbn [fst snd] in *.
    unfold output at 1. cbn [g_trace]. rewrite output_app.
    change (Read ?x :: ?t) with ([Read x] ++ t).
    rewrite !omap_app, Hy, !length_app. simpl.
    pose proof (length_entry_messages (g_kind g) (g_arg g)
      (reply_entries (xread (w_log w)
         (request (g_kind g) (g_arg g) (g_cursor g))
         (read_count (g_kind g))))).
    pose proof (length_reply_entries (w_log w)
      (request (g_kind g) (g_arg g) (g_cursor g)) (read_count (g_kind g))).
    pose proof (length_temporal_status (g_kind g) (g_arg g) ts q (w_mgr w)).
    lia.
  - unfold output at 1. cbn [g_trace]. rewrite output_app, length_app.
    simpl. lia.
  - unfold output at 1. cbn [g_trace]. rewrite output_app, length_app.
    simpl. lia.
  - unfold output at 1. cbn [g_trace]. rewrite output_app, length_app.
    simpl. lia.
Qed.

Lemma turn_yields_bounded_witness :
  let w := run (boot true true)
    [ Attach Workflow "wf" "t0";
      Xadd "wf:progress" {[ "step" := "parse" ]} 5 ] in
  ∃ g', w_gens (step w (Resume 0 "t1" ReadOk (QStatus "RUNNING"))) !! 0
        = Some g'
    ∧ (length (output g') ≤ 13)%nat.
Proof.
  intros w.
  destruct (w_gens w !! 0) as [g|] eqn:Hg; [|vm_compute in Hg; discriminate Hg].
  assert (Eg := Hg). vm_compute in Eg. injection Eg as Eg. subst g.
  destruct (turn_yields_bounded w 0 _ "t1" ReadOk (QStatus "RUNNING")
              (reachable_boot _ _ _) Hg) as (g' & Hg' & Hlen).
  exists g'. split; [exact Hg'|]. exact Hlen.
Defined.

(** ** The handlers *)

(** The handler forwards the messages of its generator in order, none
    changed and none skipped: if the client is never found gone it
    forwards all of them and never calls [stop_stream]; if the client is
    first found gone after message [n], it forwards exactly the first
    [n + 1] messages, calls [stop_stream] and drops the rest. *)
Theorem event_generator_forwards_prefix (gone : list bool) (msgs : list sse)
    (n : nat) :
  event_generator gone msgs `prefix_of` msgs
  ∧ (event_generator_stops gone msgs = false →
     event_generator gone msgs = msgs)
  ∧ (gone !! n = Some true →
     (∀ j, (j < n)%nat → gone !! j = Some false) →
     (n < length msgs)%nat →
     event_generator gone msgs = take (S n) msgs
     ∧ event_generator_stops gone msgs = true).
Proof.
  split_and!.
  - revert gone. induction msgs as [|m msgs IH]; intros gone; simpl; [done|].
    apply prefix_cons. destruct gone as [|[] gone'];
      [apply IH|apply prefix_nil|apply IH].
  - revert gone. induction msgs as [|m msgs IH]; intros gone; simpl; [done|].
    destruct gone as [|[] gone']; intros Hs; [|done|]; f_equal; by apply IH.
  - revert gone n. induction msgs as [|m msgs IH]; intros gone n Hn Hbefore Hlen;
      simpl in *; [lia|].
    destruct gone as [|b gone']; [done|].
    destruct n as [|n].
    + injection Hn as ->. by rewrite take_0.
    + pose proof (Hbefore 0 ltac:(lia)) as H0. injection H0 as ->.
      destruct (IH gone' n) as [-> ->]; [done| |lia|done].
      intros j Hj. apply (Hbefore (S j)). lia.
Qed.

Lemma event_generator_forwards_prefix_witness :
  event_generator [false; true; false]
    [ connected_msg File "abc" "t0"; not_connected_msg;
      disconnected_msg File "abc" "t1" ]
  = [ connected_msg File "abc" "t0"; not_connected_msg ].
Proof.
  destruct (event_generator_forwards_prefix [false; true; false]
              [ connected_msg File "abc" "t0"; not_connected_msg;
                disconnected_msg File "abc" "t1" ] 1) as (_ & _ & H).
  destruct H as [H _]; [done| |simpl; lia|exact H].
  intros j Hj. by assert (j = 0) as -> by lia.
Defined.

(** ** Frames on the wire *)

Lemma string_app_length (a b : string) :
  String.length (a +:+ b) = (String.length a + String.length b)%nat.
Proof. induction a as [|c a IH]; simpl; [done|]. by rewrite IH. Qed.

Lemma string_app_inv_head (p a b : string) : p +:+ a = p +:+ b → a = b.
Proof. induction p as [|c p IH]; simpl; [done|]. intros [= H]. by apply IH. Qed.

Lemma string_app_inv_tail (a b t : string) : a +:+ t = b +:+ t → a = b.
Proof.
  revert b. induction a as [|c a IH]; intros [|c' b] H; simpl in H.
  - done.
  - apply (f_equal String.length) in H.
    rewrite !string_app_length in H. simpl in H. lia.
  - apply (f_equal String.length) in H.
    rewrite !string_app_length in H. simpl in H. lia.
  - simpl in H. injection H as -> H. f_equal. by apply IH.
Qed.

Lemma string_app_inv_sep (c : ascii) (a b x y : string) :
  has_char c a = false → has_char c b = false →
  a +:+ String c x = b +:+ String c y → a = b ∧ x = y.
Proof.
  revert b. induction a as [|c1 a IH]; intros [|c2 b] Ha Hb H; simpl in *.
  - by injection H as ->.
  - injection H as -> _. by rewrite bool_decide_true in Hb.
  - injection H as -> _. by rewrite bool_decide_true in Ha.
  - injection H as -> H.
    apply orb_false_iff in Ha as [_ Ha]. apply orb_false_iff in Hb as [_ Hb].
    destruct (IH b Ha Hb H) as [-> ->]. done.
Qed.

(** The frame [_format_sse_message] writes tells the event type and the
    JSON text apart, as long as the event type holds no line feed: two
    messages with the same frame have the same event type and the same
    JSON text. *)
Theorem wire_determines_message (json_dumps : fields → string)
    (m1 m2 : sse) :
  has_char (ascii_of_nat 10) (sse_event m1) = false →
  has_char (ascii_of_nat 10) (sse_event m2) = false →
  wire json_dumps m1 = wire json_dumps m2 →
  sse_event m1 = sse_event m2
  ∧ json_dumps (sse_data m1) = json_dumps (sse_data m2).
Proof.
  intros H1 H2 Hw. unfold wire, newline in Hw.
  apply string_app_inv_head in Hw.
  apply (string_app_inv_sep _ _ _ _ _ H1 H2) in Hw as [He Hw].
  split; [done|]. apply string_app_inv_head in Hw.
  by apply string_app_inv_tail in Hw.
Qed.

Lemma wire_determines_message_witness :
  let dumps := λ d : fields, default "" (d !! "message") in
  sse_event not_connected_msg = sse_event not_connected_msg
  ∧ dumps (sse_data not_connected_msg) = "Redis not connected".
Proof.
  intros dumps.
  destruct (wire_determines_message dumps not_connected_msg not_connected_msg
              eq_refl eq_refl eq_refl) as [He Hd].
  split; [exact He|]. vm_compute. reflexivity.
Defined.

(** With a line feed in the event type the frame is ambiguous: an entry
    whose [event_type] field carries one yields the same text as a
    different message. *)
Lemma wire_line_feed_collision :
  let dumps := λ d : fields, default "" (d !! "message") in
  let m1 := _format_sse_message ("a" +:+ newline +:+ "data: b")
              {[ "message" := "c" ]} in
  let m2 := _format_sse_message "a"
              {[ "message" := "b" +:+ newline +:+ "data: c" ]} in
  wire dumps m1 = wire dumps m2 ∧ sse_event m1 ≠ sse_event m2.
Proof. split; [vm_compute; reflexivity|discriminate]. Qed.

(** ** Start-up *)

(** [initialize] never touches the registry.  If it returns, Temporal is
    connected, and Redis too when a URL was given.  If the [ping] fails,
    the exception is re-raised but the Redis client created just before
    stays in place, without a Temporal client.  With no URL and no
    client from before, every stream answers with the one [error] of its
    guard. *)
Theorem initialize_outcomes (url : string) (env : init_env)
    (m : StreamManager) :
  let r := initialize url env m in
  active_streams r.1 = active_streams m
  ∧ (r.2 = true →
     temporal_client r.1 = true
     ∧ (url ≠ "" → redis_client r.1 = true)
     ∧ (redis_client r.1 = true → ie_ping env = true))
  ∧ (url ≠ "" → ie_from_url env = true → ie_ping env = false →
     r.2 = false ∧ redis_client r.1 = true
     ∧ temporal_client r.1 = temporal_client m)
  ∧ (url = "" → redis_client m = false →
     redis_client r.1 = false
     ∧ ∀ k arg ts, output (start k arg ts r.1).2 = [not_connected_msg]).
Proof.
  intros r. subst r. unfold initialize.
  destruct (decide (url ≠ "")) as [Hurl|Hurl].
  - rewrite bool_decide_true by done.
    destruct (ie_from_url env), (ie_ping env), (ie_connect env); simpl;
      split_and!; try done; intros; simplify_eq/=; done.
  - rewrite bool_decide_false by done.
    destruct (redis_client m) eqn:Hr, (ie_ping env), (ie_connect env); simpl;
      split_and!; try done; intros; simplify_eq/=; try done;
      split; try done; intros k arg ts; unfold start; simpl;
      by rewrite ?Hr.
Qed.

Lemma initialize_outcomes_witness :
  let env := {| ie_from_url := true; ie_ping := false; ie_connect := true |} in
  let m := w_mgr (boot false false) in
  (initialize "https://eu1-moved-cat-1.upstash.io" env m).2 = false
  ∧ h_redis (stream_health "t"
               (initialize "https://eu1-moved-cat-1.upstash.io" env m).1)
    = "healthy".
Proof.
  intros env m.
  destruct (initialize_outcomes "https://eu1-moved-cat-1.upstash.io" env m)
    as (_ & _ & H & _).
  destruct H as (Hret & Hredis & _); [discriminate|reflexivity|reflexivity|].
  split; [exact Hret|]. unfold stream_health. cbn [h_redis].
  by rewrite Hredis.
Defined.

(** ** What a publish stores *)

Lemma trim_snoc (n evicted : nat) (l : list entry) (e : entry) :
  (1 ≤ n)%nat →
  trim n evicted (l ++ [e])
    = drop (evicted `min` (S (length l) - n)) l ++ [e].
Proof.
  intros Hn. unfold trim. rewrite length_app. simpl.
  replace (length l + 1 - n)%nat with (S (length l) - n)%nat by lia.
  apply drop_app_le. lia.
Qed.

Lemma stream_of_xadd key data n now_ms evicted log :
  (1 ≤ n)%nat →
  let l := stream_of log key in
  stream_of (xadd key data (Some n) now_ms evicted log) key
    = drop (evicted `min` (S (length l) - n)) l
        ++ [(next_id now_ms l, data)]
  ∧ ∀ key', key' ≠ key →
      xadd key data (Some n) now_ms evicted log !! key' = log !! key'.
Proof.
  intros Hn l. unfold xadd, stream_of at 1. rewrite lookup_insert_eq.
  simpl. split; [by apply trim_snoc|].
  intros key' Hne. by rewrite lookup_insert_ne.
Qed.

Lemma publish_stream_spec (id : string) (data : fields)
    (ts : string) (now_ms : N) (evicted : nat) (m : StreamManager)
    (log : redis_log) :
  redis_client m = true →
  let published key (log' : redis_log) stream_data :=
    let l := stream_of log key in
    let l' := stream_of log' key in
    let dropped := (evicted `min` (S (length l) - 1000))%nat in
    l' = drop dropped l ++ [(next_id now_ms l, stream_data)]
    ∧ length l' = (S (length l) - dropped)%nat
    ∧ (S (length l) `min` 1000 ≤ length l')%nat
    ∧ ((length l < 1000)%nat → l' = l ++ [(next_id now_ms l, stream_data)])
    ∧ id_lt (last_id_of l) (next_id now_ms l)
    ∧ ∀ key', key' ≠ key → log' !! key' = log !! key' in
  published "pip-ai:workflow:progress"
    (publish_workflow_progress id data ts (XaddOk now_ms evicted) m log)
    (data ∪ {[ "workflow_id" := id; "timestamp" := ts;
               "event_type" := "workflow_progress" ]})
  ∧ published "pip-ai:analysis:progress"
      (publish_analysis_progress id data ts (XaddOk now_ms evicted) m log)
      (data ∪ {[ "file_id" := id; "timestamp" := ts;
                 "event_type" := "analysis_progress" ]}).
Proof.
  intros Hredis published. subst published.
  unfold publish_workflow_progress, publish_analysis_progress.
  rewrite Hredis. cbn [negb].
  change (STREAM_KEYS_at "workflow_progress") with "pip-ai:workflow:progress".
  change (STREAM_KEYS_at "file_analysis") with "pip-ai:analysis:progress".
  split.
  - destruct (stream_of_xadd "pip-ai:workflow:progress"
      (data ∪ {[ "workflow_id" := id; "timestamp" := ts;
                 "event_type" := "workflow_progress" ]}) 1000 now_ms evicted
      log) as [Hl Hframe]; [lia|].
    cbv zeta in *. rewrite Hl.
    split_and!; [done| | | |apply next_id_above|done].
    + rewrite length_app, length_drop. simpl. lia.
    + rewrite length_app, length_drop. simpl. lia.
    + intros Hlt.
      replace (evicted `min` (S (length (stream_of log
                 "pip-ai:workflow:progress")) - 1000))%nat with 0%nat by lia.
      by rewrite drop_0.
  - destruct (stream_of_xadd "pip-ai:analysis:progress"
      (data ∪ {[ "file_id" := id; "timestamp" := ts;
                 "event_type" := "analysis_progress" ]}) 1000 now_ms evicted
      log) as [Hl Hframe]; [lia|].
    cbv zeta in *. rewrite Hl.
    split_and!; [done| | | |apply next_id_above|done].
    + rewrite length_app, length_drop. simpl. lia.
    + rewrite length_app, length_drop. simpl. lia.
    + intros Hlt.
      replace (evicted `min` (S (length (stream_of log
                 "pip-ai:analysis:progress")) - 1000))%nat with 0%nat by lia.
      by rewrite drop_0.
Qed.

(** A publish that reaches Redis appends one entry, with an id above all
    ids of the stream, to the one stream of its kind and to no other.
    The trimming asked for is the approximate one: Redis may then drop
    oldest entries, at most the surplus over 1000, so what is left is
    the newest part of the stream, the entry just published last, and
    never fewer than the newest 1000; a stream of fewer than 1000
    entries loses none.  Nothing bounds the length from above: when
    Redis drops nothing the stream grows by one, beyond 1000 too. *)
Theorem publish_appends_and_trims (id : string) (data : fields)
    (ts : string) (now_ms : N) (evicted : nat) (m : StreamManager)
    (log : redis_log) :
  redis_client m = true →
  let published key (log' : redis_log) stream_data :=
    let l := stream_of log key in
    let l' := stream_of log' key in
    let dropped := (evicted `min` (S (length l) - 1000))%nat in
    l' = drop dropped l ++ [(next_id now_ms l, stream_data)]
    ∧ length l' = (S (length l) - dropped)%nat
    ∧ (S (length l) `min` 1000 ≤ length l')%nat
    ∧ ((length l < 1000)%nat → l' = l ++ [(next_id now_ms l, stream_data)])
    ∧ id_lt (last_id_of l) (next_id now_ms l)
    ∧ ∀ key', key' ≠ key → log' !! key' = log !! key' in
  published "pip-ai:workflow:progress"
    (publish_workflow_progress id data ts (XaddOk now_ms evicted) m log)
    (data ∪ {[ "workflow_id" := id; "timestamp" := ts;
               "event_type" := "workflow_progress" ]})
  ∧ published "pip-ai:analysis:progress"
      (publish_analysis_progress id data ts (XaddOk now_ms evicted) m log)
      (data ∪ {[ "file_id" := id; "timestamp" := ts;
                 "event_type" := "analysis_progress" ]}).
Proof. apply publish_stream_spec. Qed.

Lemma publish_appends_and_trims_witness :
  let m := w_mgr (boot true true) in
  let old : list entry := (λ i, ((N.of_nat i, 0%N), ∅)) <$> seq 1 1000 in
  let log : redis_log := {[ "pip-ai:workflow:progress" := old ]} in
  let after evicted :=
    stream_of (publish_workflow_progress "wf" {[ "step" := "started" ]} "t0"
                 (XaddOk 2000 evicted) m log) "pip-ai:workflow:progress" in
  length (after 0%nat) = 1001%nat
  ∧ head (after 0%nat) = head old
  ∧ length (after 1%nat) = 1000%nat
  ∧ length (after 100%nat) = 1000%nat.
Proof.
  intros m old log after.
  assert (stream_of log "pip-ai:workflow:progress" = old) as Hold
    by (unfold stream_of, log; by rewrite lookup_singleton_eq).
  assert (length old = 1000%nat) as Hlen
    by (unfold old; by rewrite length_fmap, length_seq).
  pose proof (λ evicted,
    proj1 (publish_appends_and_trims "wf" {[ "step" := "started" ]} "t0"
             2000 evicted m log eq_refl)) as H.
  cbv zeta in H. fold after in H. rewrite Hold, Hlen in H.
  split_and!.
  - destruct (H 0%nat) as (_ & -> & _). reflexivity.
  - destruct (H 0%nat) as (-> & _). reflexivity.
  - destruct (H 1%nat) as (_ & -> & _). reflexivity.
  - destruct (H 100%nat) as (_ & -> & _). reflexivity.
Defined.

(** The fields of the caller are laid over the three the publisher
    sets: a field of [data] named [workflow_id] (or [file_id]),
    [timestamp] or [event_type] replaces the value the publisher would
    store, and every other field of the stored entry is that of
    [data]. *)
Theorem publish_caller_fields_win (id : string) (data : fields)
    (ts : string) (now_ms : N) (evicted : nat) (m : StreamManager)
    (log : redis_log) (k : string) :
  redis_client m = true →
  (∃ e, last (stream_of
                (publish_workflow_progress id data ts
                   (XaddOk now_ms evicted) m log)
                "pip-ai:workflow:progress") = Some e
     ∧ e.2 !! k =
         match data !! k with
         | Some v => Some v
         | None =>
             if decide (k = "workflow_id") then Some id
             else if decide (k = "timestamp") then Some ts
             else if decide (k = "event_type") then Some "workflow_progress"
             else None
         end)
  ∧ (∃ e, last (stream_of
                  (publish_analysis_progress id data ts
                     (XaddOk now_ms evicted) m log)
                  "pip-ai:analysis:progress") = Some e
       ∧ e.2 !! k =
           match data !! k with
           | Some v => Some v
           | None =>
               if decide (k = "file_id") then Some id
               else if decide (k = "timestamp") then Some ts
               else if decide (k = "event_type") then Some "analysis_progress"
               else None
           end).
Proof.
  intros Hredis.
  destruct (publish_stream_spec id data ts now_ms evicted m log Hredis)
    as [(Hw & _) (Ha & _)].
  split.
  - eexists. rewrite Hw, last_snoc. split; [done|]. cbn [snd].
    rewrite lookup_union. destruct (data !! k) as [v|]; simpl.
    + by destruct (_ !! k).
    + rewrite left_id by apply _.
      repeat case_decide; subst; by simplify_map_eq.
  - eexists. rewrite Ha, last_snoc. split; [done|]. cbn [snd].
    rewrite lookup_union. destruct (data !! k) as [v|]; simpl.
    + by destruct (_ !! k).
    + rewrite left_id by apply _.
      repeat case_decide; subst; by simplify_map_eq.
Qed.

Lemma publish_caller_fields_win_witness :
  let m := w_mgr (boot true true) in
  ∃ e, last (stream_of
               (publish_workflow_progress "wf"
                  {[ "workflow_id" := "other"; "step" := "started" ]} "t0"
                  (XaddOk 7 0) m ∅) "pip-ai:workflow:progress") = Some e
    ∧ e.2 !! "workflow_id" = Some "other".
Proof.
  intros m.
  destruct (publish_caller_fields_win "wf"
              {[ "workflow_id" := "other"; "step" := "started" ]} "t0" 7 0
              m ∅ "workflow_id" eq_refl) as [(e & He & Hk) _].
  exists e. split; [exact He|]. rewrite Hk. vm_compute. reflexivity.
Defined.

(** ** From a publish to a user stream *)

Lemma newer_none cur (l : list entry) :
  Forall (λ e : entry, id_le e.1 cur) l → newer cur l = [].
Proof.
  unfold newer. induction 1 as [|e l He _ IH]; [done|].
  rewrite filter_cons, IH. rewrite decide_False; [done|].
  intros Hlt. by eapply id_lt_not_le.
Qed.

Lemma newer_after_append (l : list entry) (e : entry) (n : nat) :
  sorted_ids l →
  id_lt (last_id_of l) e.1 →
  newer (last_id_of l) (drop n l ++ [e]) = [e].
Proof.
  intros Hs He. unfold newer. rewrite filter_app.
  fold (newer (last_id_of l) (drop n l)). rewrite newer_none.
  - simpl. rewrite filter_cons, decide_True by done. done.
  - apply Forall_forall. intros x Hx. apply sorted_ids_last; [done|].
    eapply elem_of_sublist; [done|apply sublist_drop].
Qed.

Lemma xread_get_intro log req n chan cur e es :
  alist_get chan req = Some cur →
  take n (newer cur (stream_of log chan)) = e :: es →
  alist_get chan (xread log req n) = Some (e :: es).
Proof.
  unfold xread. induction req as [|[key c] req IH]; simpl; [done|].
  intros Hget Htake. destruct (decide (key = chan)) as [->|Hne].
  - injection Hget as ->. rewrite Htake. simpl. by rewrite decide_True.
  - destruct (take n (newer c (stream_of log key))); simpl; [by apply IH|].
    rewrite decide_False by done. by apply IH.
Qed.

Lemma alist_get_elem {V} k (v : V) d : alist_get k d = Some v → (k, v) ∈ d.
Proof.
  induction d as [|[k0 v0] d IH]; simpl; [done|].
  destruct (decide (k0 = k)) as [->|Hne].
  - intros [= ->]. left.
  - intros H. right. by apply IH.
Qed.

Lemma consume_messages_mem k arg name msgs c e :
  e ∈ msgs →
  Entry name e (entry_message k arg e) ∈ (consume_messages k arg name msgs c).2.
Proof.
  revert c. induction msgs as [|e' msgs IH]; intros c Hin; simpl;
    [by apply elem_of_nil in Hin|].
  specialize (IH (advance c name e'.1)).
  destruct (consume_messages k arg name msgs _) as [c2 tr]. simpl in *.
  apply elem_of_cons in Hin as [->|Hin]; [left|right; by apply IH].
Qed.

Lemma consume_streams_mem k arg streams c name msgs e :
  (name, msgs) ∈ streams → e ∈ msgs →
  Entry name e (entry_message k arg e) ∈ (consume_streams k arg streams c).2.
Proof.
  revert c. induction streams as [|[name' msgs'] streams IH]; intros c Hs He;
    simpl; [by apply elem_of_nil in Hs|].
  pose proof (consume_messages_mem k arg name' msgs' c) as Hm.
  destruct (consume_messages k arg name' msgs' c) as [c1 tr1].
  specialize (IH c1).
  destruct (consume_streams k arg streams c1) as [c2 tr2]. simpl in *.
  apply elem_of_app. apply elem_of_cons in Hs as [[= -> ->]|Hs].
  - left. by apply Hm.
  - right. by apply IH.
Qed.

Lemma consumed_turn chan req tr k arg ts q m :
  consumed chan (Read req :: tr ++ temporal_status k arg ts q m ++ [Sleep])
  = consumed chan tr.
Proof.
  change (Read req :: ?t) with ([Read req] ++ t). rewrite !consumed_app.
  destruct (consumed_temporal_status chan k arg ts q m) as [-> _].
  simpl. apply app_nil_r.
Qed.

Lemma turn_after_append ts q log1 m g chan (l : list entry) (e : entry) n :
  gen_inv g →
  is_active m (registry_key (g_kind g) (g_arg g)) = true →
  sorted_ids l →
  id_lt (last_id_of l) e.1 →
  stream_of log1 chan = drop n l ++ [e] →
  cursor_at g chan = Some (last_id_of l) →
  let g' := (loop_turn ts ReadOk q log1 m g).2 in
  consumed chan (g_trace g') = consumed chan (g_trace g) ++ [e.1]
  ∧ cursor_at g' chan = Some e.1
  ∧ Entry chan e (entry_message (g_kind g) (g_arg g) e) ∈ g_trace g'.
Proof.
  intros Hinv Hact Hs He Hlog Hcur g'. subst g'.
  rewrite (loop_turn_ok _ _ _ _ _ Hact). cbn [snd g_trace]. cbv zeta.
  unfold cursor_at in *. cbn [g_kind g_arg g_cursor].
  set (req := request (g_kind g) (g_arg g) (g_cursor g)) in *.
  assert (0 < read_count (g_kind g))%nat as Hcount
    by (destruct (g_kind g); simpl; lia).
  assert (take (read_count (g_kind g))
            (newer (last_id_of l) (stream_of log1 chan)) = [e]) as Htake.
  { rewrite Hlog, newer_after_append by done.
    destruct (read_count (g_kind g)) as [|c]; [lia|].
    simpl. by rewrite take_nil. }
  pose proof (xread_get_intro log1 req (read_count (g_kind g)) chan _ e []
                Hcur Htake) as Hget.
  destruct (consume_streams_chan (g_kind g) (g_arg g)
              (xread log1 req (read_count (g_kind g))) (g_cursor g) chan)
    as (_ & S2 & S3 & _).
  { eapply sublist_NoDup; [|apply xread_keys]. by apply gen_inv_nodup. }
  { intros name Hname. eapply elem_of_sublist; [done|apply xread_keys]. }
  rewrite Hget in S2, S3. simpl in S2, S3.
  split_and!.
  - by rewrite consumed_app, consumed_turn, S2.
  - exact S3.
  - apply elem_of_app. right. right. apply elem_of_app. left.
    eapply consume_streams_mem; [by apply alist_get_elem|]. left.
Qed.

(** What either publisher stores is what a user stream reads: a user
    generator that has caught up with the stream goes through the
    published entry at its next turn, moves its cursor to the id of the
    entry, and yields the entry exactly when [_is_user_event] holds of
    the stored fields. *)
Theorem published_event_reaches_user_stream (w : world) (i : nat) (g : gen)
    (id : string) (data : fields) (ts ts' : string) (now_ms : N)
    (evicted : nat) (q : query_outcome) (analysis : bool) :
  reachable w →
  w_gens w !! i = Some g →
  g_kind g = Global →
  g_pc g = InLoop →
  redis_client (w_mgr w) = true →
  is_active (w_mgr w) (registry_key (g_kind g) (g_arg g)) = true →
  let chan :=
    if analysis then "pip-ai:analysis:progress"
    else "pip-ai:workflow:progress" in
  let stream_data : fields :=
    if analysis
    then data ∪ {[ "file_id" := id; "timestamp" := ts;
                   "event_type" := "analysis_progress" ]}
    else data ∪ {[ "workflow_id" := id; "timestamp" := ts;
                   "event_type" := "workflow_progress" ]} in
  let publish :=
    if analysis then PublishAnalysis id data ts (XaddOk now_ms evicted)
    else PublishWorkflow id data ts (XaddOk now_ms evicted) in
  let l := stream_of (w_log w) chan in
  cursor_at g chan = Some (last_id_of l) →
  let e : entry := (next_id now_ms l, stream_data) in
  let w' := step (step w publish) (Resume i ts' ReadOk q) in
  ∃ g', w_gens w' !! i = Some g'
    ∧ consumed chan (g_trace g') = consumed chan (g_trace g) ++ [e.1]
    ∧ cursor_at g' chan = Some e.1
    ∧ Entry chan e
        (if _is_user_event stream_data (g_arg g)
         then Some (_format_sse_message
                      (get_or stream_data "event_type" "notification")
                      stream_data)
         else None) ∈ g_trace g'.
Proof.
  intros Hw Hi Hk Hpc Hredis Hact chan stream_data publish l Hcur e w'.
  destruct (reachable_inv w Hw) as [Hwf Hall]. rewrite Forall_lookup in Hall.
  pose proof (Hall i g Hi) as Hinv.
  destruct (publish_stream_spec id data ts now_ms evicted (w_mgr w) (w_log w)
              Hredis)
    as [(Hlw & _ & _ & _ & Hidw & _) (Hla & _ & _ & _ & Hida & _)].
  assert (∃ n, stream_of (w_log (step w publish)) chan = drop n l ++ [e])
    as [n Hlog].
  { subst publish chan l e stream_data. destruct analysis; simpl; eauto. }
  assert (w_gens (step w publish) = w_gens w
          ∧ w_mgr (step w publish) = w_mgr w) as [Hgens Hmgr]
    by (subst publish; by destruct analysis).
  subst w'. cbn [step]. rewrite Hgens, Hi, Hpc, Hmgr. cbn [w_gens snd].
  eexists. split; [apply list_lookup_insert_eq; by eapply lookup_lt_Some|].
  destruct (turn_after_append ts' q (w_log (step w publish)) (w_mgr w) g
              chan l e n Hinv Hact) as (H1 & H2 & H3); try done.
  { by apply log_wf_stream. }
  { subst e l chan. simpl. destruct analysis; [exact Hida|exact Hidw]. }
  split_and!; [exact H1|exact H2|].
  unfold entry_message in H3. rewrite Hk in H3. exact H3.
Qed.

Lemma published_event_reaches_user_stream_witness :
  let w := run (boot true true) [Attach Global "u1" "t0"] in
  let w' := step (step w (PublishWorkflow "wf" {[ "user_id" := "u1" ]} "t1"
                            (XaddOk 7 0)))
                 (Resume 0 "t2" ReadOk QNotFound) in
  ∃ g', w_gens w' !! 0 = Some g'
    ∧ cursor_at g' "pip-ai:workflow:progress" = Some (7%N, 0%N).
Proof.
  intros w w'.
  destruct (w_gens w !! 0) as [g|] eqn:Hg; [|vm_compute in Hg; discriminate Hg].
  assert (Eg := Hg). vm_compute in Eg. injection Eg as Eg. subst g.
  destruct (published_event_reaches_user_stream w 0 _ "wf"
              {[ "user_id" := "u1" ]} "t1" "t2" 7 0 QNotFound false
              (reachable_boot _ _ _) Hg eq_refl eq_refl eq_refl)
    as (g' & Hg' & _ & Hcur & _).
  { vm_compute. reflexivity. }
  { vm_compute. reflexivity. }
  exists g'. split; [exact Hg'|]. rewrite Hcur. vm_compute. reflexivity.
Defined.

(** * The upload API *)

(** ** Keys and file ids *)

Lemma has_char_app c (a b : string) :
  has_char c (a +:+ b) = has_char c a || has_char c b.
Proof. induction a as [|c' a IH]; simpl; [done|]. by rewrite IH, orb_assoc. Qed.

Lemma replace_char_removes a b s : a ≠ b → has_char a (replace_char a b s) = false.
Proof.
  intros Hne. induction s as [|c s IH]; simpl; [done|]. rewrite IH.
  destruct (decide (c = a)) as [->|Hc]; by rewrite bool_decide_false.
Qed.

Lemma replace_char_keeps_absent a b c s :
  b ≠ c → has_char c s = false → has_char c (replace_char a b s) = false.
Proof.
  intros Hne. induction s as [|c' s IH]; simpl; [done|].
  intros [Hc Hs]%orb_false_iff. rewrite IH by done.
  destruct (decide (c' = a)); [by rewrite bool_decide_false|].
  by rewrite Hc.
Qed.

Lemma replace_char_length a b s :
  String.length (replace_char a b s) = String.length s.
Proof. induction s as [|c s IH]; simpl; [done|]. by rewrite IH. Qed.

(** The file name that goes into the key has the length of the original
    and holds neither a space nor a slash. *)
Theorem safe_filename_clean (filename : string) :
  has_char " " (safe_filename filename) = false
  ∧ has_char "/" (safe_filename filename) = false
  ∧ String.length (safe_filename filename) = String.length filename.
Proof.
  unfold safe_filename. split_and!.
  - apply replace_char_keeps_absent; [done|]. by apply replace_char_removes.
  - by apply replace_char_removes.
  - by rewrite !replace_char_length.
Qed.

Lemma split_nonempty sep s : split sep s ≠ [].
Proof.
  induction s as [|c s IH]; simpl; [done|].
  destruct (decide (c = sep)); [done|]. by destruct (split sep s).
Qed.

Lemma split_no_sep sep s : has_char sep s = false → split sep s = [s].
Proof.
  induction s as [|c s IH]; simpl; [done|].
  intros [Hc Hs]%orb_false_iff. apply bool_decide_eq_false in Hc.
  rewrite decide_False by done. by rewrite IH.
Qed.

Lemma split_app_sep sep (a b : string) :
  split sep (a +:+ String sep b) = split sep a ++ split sep b.
Proof.
  induction a as [|c a IH]; simpl.
  - by rewrite decide_True.
  - rewrite IH. destruct (decide (c = sep)); [done|].
    pose proof (split_nonempty sep a). by destruct (split sep a).
Qed.

Lemma string_app_assoc (a b c : string) : (a +:+ b) +:+ c = a +:+ (b +:+ c).
Proof.
  induction a as [|x a IH]; [done|].
  change (String x ((a +:+ b) +:+ c) = String x (a +:+ (b +:+ c))).
  by rewrite IH.
Qed.

Lemma last_split_app_sep sep (a b : string) :
  last (split sep (a +:+ String sep b)) = last (split sep b).
Proof.
  rewrite split_app_sep, last_app.
  destruct (last (split sep b)) eqn:Hl; [done|].
  apply last_None in Hl. by apply split_nonempty in Hl.
Qed.

Lemma file_id_round_trip_aux (file_id timestamp user_id filename : string) :
  has_char "/" file_id = false →
  has_char "_" file_id = false →
  file_id_of_key (generate_s3_key file_id timestamp user_id filename)
  = file_id.
Proof.
  intros Hslash Hunder. unfold file_id_of_key, generate_s3_key.
  change ("/" +:+ ?x) with (String "/" x).
  change ("_" +:+ ?x) with (String "_" x).
  rewrite <- (string_app_assoc "uploads/" user_id).
  rewrite last_split_app_sep.
  change ("/" +:+ ?x) with (String "/" x).
  rewrite last_split_app_sep.
  rewrite (split_no_sep "/" (file_id +:+ String "_" (safe_filename filename))).
  - simpl. rewrite split_app_sep, (split_no_sep _ file_id) by done. done.
  - rewrite has_char_app, Hslash. simpl. unfold safe_filename.
    by apply replace_char_removes.
Qed.

(** The handler recovers the uuid it has just put into the key: as long
    as the uuid holds no slash and no underscore (none does), the file
    id cut out of the key is the uuid, whatever the user id and the file
    name are. *)
Theorem file_id_round_trip (file_id timestamp user_id filename : string) :
  has_char "/" file_id = false →
  has_char "_" file_id = false →
  file_id_of_key (generate_s3_key file_id timestamp user_id filename)
  = file_id.
Proof. apply file_id_round_trip_aux. Qed.

Lemma file_id_round_trip_witness :
  file_id_of_key
    (generate_s3_key "3f2b8c1e-9a47-4d2b-8f0e-5c6d7e8f9a0b" "2025/01/31"
       "team/a_b" "my report/v_2.pdf")
  = "3f2b8c1e-9a47-4d2b-8f0e-5c6d7e8f9a0b".
Proof.
  apply (file_id_round_trip "3f2b8c1e-9a47-4d2b-8f0e-5c6d7e8f9a0b"
           "2025/01/31" "team/a_b" "my report/v_2.pdf");
    vm_compute; reflexivity.
Defined.

(** ** Uploads *)

(** The [analysis_type] a caller asks for changes nothing: the answer,
    the Redis log and the workflow input are the same for any two
    values of it, and the workflow is always told the category of the
    content type (of [application/octet-stream], a document, when the
    upload names none). *)
Theorem requested_analysis_type_is_ignored (env : upload_env)
    (file : UploadFile) (user_id : string) (ei gs dl : bool)
    (at1 at2 : string) (m : StreamManager) (log : redis_log) :
  upload_file env file user_id ei gs dl at1 m log
  = upload_file env file user_id ei gs dl at2 m log
  ∧ ∀ workflow_id input,
      uo_started (upload_file env file user_id ei gs dl at1 m log)
      = Some (workflow_id, input) →
      ai_analysisType input =
        get_content_type_category
          (str_or (uf_content_type file) "application/octet-stream").
Proof.
  unfold upload_file. destruct (uf_filename file) as [filename|]; [|done].
  destruct (bool_decide (filename = "")); [done|].
  destruct (match uf_size file with Some _ => _ | None => _ end); [done|].
  unfold start_analysis_workflow, upload_failed.
  destruct (upload_to_s3 env _) as [file_url|status detail]; [|done].
  destruct (negb (ue_temporal_client env)); [done|].
  destruct (ue_start_workflow env); [done|].
  split; [done|]. simpl. intros workflow_id input [= <- <-]. done.
Qed.

Lemma requested_analysis_type_is_ignored_witness :
  let env := {| ue_bucket := "pip"; ue_region := "us-east-1";
                ue_file_uuid := "3f2b8c1e"; ue_workflow_uuid := "77aa";
                ue_date := "2025/01/31"; ue_now := "t0";
                ue_put_object := None; ue_temporal_client := true;
                ue_start_workflow := None;
                ue_xadd_analysis := XaddOk 5 0; ue_xadd_workflow := XaddOk 6 0;
                ue_str_http := λ _ detail, detail |} in
  let file := {| uf_filename := Some "scan.png"; uf_size := Some 10%N;
                 uf_content_type := Some "image/png" |} in
  ∃ workflow_id input,
    uo_started (upload_file env file "u1" false true true "code"
                  (w_mgr (boot true true)) ∅) = Some (workflow_id, input)
    ∧ ai_analysisType input = "image".
Proof.
  intros env file.
  destruct (requested_analysis_type_is_ignored env file "u1" false true true
              "code" "auto" (w_mgr (boot true true)) ∅) as [_ H].
  eexists _, _. split; [vm_compute; reflexivity|].
  erewrite H; [|vm_compute; reflexivity]. vm_compute. reflexivity.
Defined.

(** What [upload_file] rejects before doing anything: a missing or empty
    file name (400), and a known size above 100 MB (413); a size of
    exactly 100 MB, or an unknown one, is let through.  A rejected
    upload stores nothing and starts nothing; whatever fails after the
    checks is answered with 500. *)
Theorem upload_validation (env : upload_env) (file : UploadFile)
    (user_id : string) (ei gs dl : bool) (atype : string)
    (m : StreamManager) (log : redis_log) :
  let out := upload_file env file user_id ei gs dl atype m log in
  let rejected status detail :=
    out = {| uo_result := HTTPException status detail;
             uo_log := log; uo_started := None |} in
  let let_through :=
    (∃ response, uo_result out = Returns response)
    ∨ (∃ detail, uo_result out = HTTPException 500 detail) in
  match uf_filename file with
  | None => rejected 400 "Filename is required"
  | Some filename =>
      if bool_decide (filename = "")
      then rejected 400 "Filename is required"
      else match uf_size file with
           | Some size =>
               if (104857600 <? size)%N
               then rejected 413 "File too large (max 100MB)"
               else let_through
           | None => let_through
           end
  end.
Proof.
  intros out rejected let_through. subst out rejected let_through.
  unfold upload_file. destruct (uf_filename file) as [filename|]; [|done].
  destruct (bool_decide (filename = "")); [done|].
  set (rest := match upload_to_s3 env _ with Returns _ => _ | _ => _ end).
  assert ((∃ response, uo_result rest = Returns response)
          ∨ ∃ detail, uo_result rest = HTTPException 500 detail) as Hrest.
  { subst rest. unfold upload_to_s3, start_analysis_workflow, upload_failed.
    destruct (ue_put_object env); [right; by eexists|].
    destruct (negb (ue_temporal_client env)); [right; by eexists|].
    destruct (ue_start_workflow env); [right; by eexists|left; by eexists]. }
  destruct (uf_size file) as [size|]; [|done].
  change MAX_UPLOAD with 104857600%N.
  destruct (N.ltb_spec 104857600 size) as [Hbig|Hok].
  - assert ((size =? 0)%N = false) as -> by (apply N.eqb_neq; lia). done.
  - by rewrite andb_false_r.
Qed.

Lemma upload_validation_boundary :
  let env := {| ue_bucket := "pip"; ue_region := "us-east-1";
                ue_file_uuid := "3f2b8c1e"; ue_workflow_uuid := "77aa";
                ue_date := "2025/01/31"; ue_now := "t0";
                ue_put_object := None; ue_temporal_client := true;
                ue_start_workflow := None;
                ue_xadd_analysis := XaddOk 5 0; ue_xadd_workflow := XaddOk 6 0;
                ue_str_http := λ _ detail, detail |} in
  let upload size :=
    uo_result (upload_file env
                 {| uf_filename := Some "a.pdf"; uf_size := Some size;
                    uf_content_type := Some "application/pdf" |}
                 "u1" false true true "auto" (w_mgr (boot true true)) ∅) in
  ur_status <$> (match upload 104857600%N with
                 | Returns r => Some r | _ => None end) = Some "uploaded"
  ∧ upload 104857601%N = HTTPException 413 "File too large (max 100MB)".
Proof. split; vm_compute; reflexivity. Qed.

(** If [put_object] fails, the upload leaves nothing behind.  If it
    succeeds and the workflow cannot be started, the answer is 500 and
    no workflow runs, but the handler has by then published that the
    file is uploaded.  What that leaves in Redis is what the publisher
    does: with a Redis client and an [xadd] that succeeds, the
    [uploaded] event (progress 25) is the newest entry of the analysis
    stream and no other stream has changed; with no Redis client, or
    an [xadd] that raises, Redis is as it was. *)
Theorem failed_upload_effects (env : upload_env) (file : UploadFile)
    (user_id : string) (ei gs dl : bool) (atype : string)
    (m : StreamManager) (log : redis_log) (filename : string) :
  uf_filename file = Some filename →
  filename ≠ "" →
  (∀ size, uf_size file = Some size → (size ≤ 104857600)%N) →
  let out := upload_file env file user_id ei gs dl atype m log in
  (∀ msg, ue_put_object env = Some msg →
     out = upload_failed env 500 ("S3 upload failed: " +:+ msg) log None)
  ∧ (ue_put_object env = None →
     ue_temporal_client env = false ∨ is_Some (ue_start_workflow env) →
     (∃ detail, uo_result out = HTTPException 500 detail)
     ∧ uo_started out = None
     ∧ (∀ now_ms evicted,
          redis_client m = true →
          ue_xadd_analysis env = XaddOk now_ms evicted →
          (∃ e, last (stream_of (uo_log out) "pip-ai:analysis:progress")
                = Some e
             ∧ e.1 = next_id now_ms
                       (stream_of log "pip-ai:analysis:progress")
             ∧ e.2 !! "step" = Some "uploaded"
             ∧ e.2 !! "progress" = Some "25"
             ∧ e.2 !! "event_type" = Some "analysis_progress")
          ∧ ∀ key, key ≠ "pip-ai:analysis:progress" →
              uo_log out !! key = log !! key)
     ∧ (redis_client m = false ∨ ue_xadd_analysis env = XaddRaises →
        uo_log out = log)).
Proof.
  intros Hname Hne Hsize out. subst out. unfold upload_file.
  rewrite Hname, bool_decide_false by done.
  assert (match uf_size file with
          | Some size => negb (size =? 0)%N && (MAX_UPLOAD <? size)%N
          | None => false
          end = false) as ->.
  { destruct (uf_size file) as [size|]; [|done].
    specialize (Hsize size eq_refl). change MAX_UPLOAD with 104857600%N.
    apply andb_false_iff. right. apply N.ltb_ge. lia. }
  split.
  - intros msg Hput. unfold upload_to_s3. by rewrite Hput.
  - intros Hput Hstart. unfold upload_to_s3. rewrite Hput.
    assert (∀ (url : string) (md : FileMetadata) (key : string),
      ∃ detail, start_analysis_workflow env url md key
                = HTTPException 500 detail) as Hfail.
    { intros url md key. unfold start_analysis_workflow.
      destruct Hstart as [->|[msg ->]]; simpl; [by eexists|].
      destruct (ue_temporal_client env); simpl; by eexists. }
    match goal with |- context [start_analysis_workflow env ?u ?md ?k] =>
      destruct (Hfail u md k) as [detail ->]
    end.
    unfold upload_failed. cbn [uo_result uo_started uo_log].
    split; [by eexists|]. split; [done|]. split.
    + intros now_ms evicted Hredis Hxadd. rewrite Hredis, Hxadd.
      match goal with |- context [publish_analysis_progress ?fid ?d ?t _ _ _] =>
        destruct (publish_stream_spec fid d t now_ms evicted m log Hredis)
          as [_ (Hl & _ & _ & _ & _ & Hframe)]
      end.
      split; [|exact Hframe].
      eexists. rewrite Hl, last_snoc. split; [done|]. cbn [fst snd].
      split; [done|]. split_and!; by simplify_map_eq.
    + intros [Hredis|Hxadd].
      * by rewrite Hredis.
      * rewrite Hxadd. destruct (redis_client m); [|done].
        apply publish_analysis_raises.
Qed.

Lemma failed_upload_effects_witness :
  let env o :=
    {| ue_bucket := "pip"; ue_region := "us-east-1";
       ue_file_uuid := "3f2b8c1e"; ue_workflow_uuid := "77aa";
       ue_date := "2025/01/31"; ue_now := "t0";
       ue_put_object := None; ue_temporal_client := false;
       ue_start_workflow := None;
       ue_xadd_analysis := o; ue_xadd_workflow := XaddOk 6 0;
       ue_str_http := λ _ detail, detail |} in
  let file := {| uf_filename := Some "a.pdf"; uf_size := None;
                 uf_content_type := None |} in
  let out o redis :=
    upload_file (env o) file "u1" false true true "auto"
      (w_mgr (boot redis true)) ∅ in
  uo_started (out (XaddOk 5 0) true) = None
  ∧ length (stream_of (uo_log (out (XaddOk 5 0) true))
              "pip-ai:analysis:progress") = 1
  ∧ uo_log (out (XaddOk 5 0) false) = ∅
  ∧ uo_log (out XaddRaises true) = ∅.
Proof.
  intros env file out.
  pose proof (λ o redis,
    proj2 (failed_upload_effects (env o) file "u1" false true true "auto"
             (w_mgr (boot redis true)) ∅ "a.pdf" eq_refl
             ltac:(discriminate) ltac:(intros size Hsize; discriminate Hsize))
      eq_refl (or_introl eq_refl)) as H.
  cbv zeta in H. fold (out) in H.
  split_and!.
  - by destruct (H (XaddOk 5 0) true) as (_ & Hnone & _).
  - vm_compute. reflexivity.
  - destruct (H (XaddOk 5 0) false) as (_ & _ & _ & Hlog).
    apply Hlog. by left.
  - destruct (H XaddRaises true) as (_ & _ & _ & Hlog).
    apply Hlog. by right.
Defined.

(** ** Upload events and the user filter *)

Lemma xadd_elem key data maxlen now_ms evicted log key' (e : entry) :
  e ∈ stream_of (xadd key data maxlen now_ms evicted log) key' →
  e ∈ stream_of log key' ∨ e.2 = data.
Proof.
  unfold xadd, stream_of at 1.
  destruct (decide (key = key')) as [<-|Hne].
  - rewrite lookup_insert_eq. simpl. intros He.
    assert (e ∈ stream_of log key ++ [(next_id now_ms (stream_of log key), data)])
      as [Hin|Hin%list_elem_of_singleton]%elem_of_app.
    { destruct maxlen as [n|]; [|done].
      eapply elem_of_sublist; [done|apply sublist_drop]. }
    + by left.
    + right. by subst e.
  - rewrite lookup_insert_ne by done. by left.
Qed.

Lemma prefix_app_l (a b s : string) :
  String.prefix (a +:+ b) s = true → String.prefix a s = true.
Proof.
  revert s. induction a as [|c a IH]; intros s H; [by destruct s|].
  change (String c a +:+ b) with (String c (a +:+ b)) in H.
  destruct s as [|c' s]; [done|]. simpl in *.
  destruct (ascii_dec c c'); [by apply IH|done].
Qed.

Lemma upload_analysis_event_filtered (file_id url ts viewer : string) :
  String.prefix "user:" file_id = false →
  _is_user_event
    ({[ "step" := "uploaded"; "progress" := "25";
        "message" := "File uploaded to S3 successfully"; "s3_url" := url ]}
     ∪ {[ "file_id" := file_id; "timestamp" := ts;
          "event_type" := "analysis_progress" ]}) viewer = false.
Proof.
  intros Hfid. unfold _is_user_event, get_or.
  rewrite bool_decide_false by by simplify_map_eq.
  match goal with |- context [@lookup _ _ _ _ "workflow_id" ?d] =>
    assert (d !! "workflow_id" = None) as -> by by simplify_map_eq
  end.
  match goal with |- context [@lookup _ _ _ _ "file_id" ?d] =>
    assert (d !! "file_id" = Some file_id) as -> by by simplify_map_eq
  end.
  simpl. apply not_true_is_false. intros H.
  change ("user:" +:+ viewer +:+ ":") with ("user:" +:+ (viewer +:+ ":")) in H.
  apply prefix_app_l in H. congruence.
Qed.

Lemma upload_workflow_event_filtered (file_id wuuid ts viewer : string) :
  String.prefix "user:" file_id = false →
  _is_user_event
    ({[ "step" := "started"; "progress" := "30";
        "message" := "Analysis workflow started"; "file_id" := file_id ]}
     ∪ {[ "workflow_id" := "analyze-" +:+ wuuid; "timestamp" := ts;
          "event_type" := "workflow_progress" ]}) viewer = false.
Proof.
  intros Hfid. unfold _is_user_event, get_or.
  rewrite bool_decide_false by by simplify_map_eq.
  match goal with |- context [@lookup _ _ _ _ "workflow_id" ?d] =>
    assert (d !! "workflow_id" = Some ("analyze-" +:+ wuuid)) as ->
      by by simplify_map_eq
  end.
  match goal with |- context [@lookup _ _ _ _ "file_id" ?d] =>
    assert (d !! "file_id" = Some file_id) as -> by by simplify_map_eq
  end.
  simpl. apply not_true_is_false. intros H.
  change ("user:" +:+ viewer +:+ ":") with ("user:" +:+ (viewer +:+ ":")) in H.
  apply prefix_app_l in H. congruence.
Qed.

Lemma publish_analysis_elem file_id data ts o m log key (e : entry) :
  e ∈ stream_of (publish_analysis_progress file_id data ts o m log) key →
  e ∈ stream_of log key
  ∨ e.2 = data ∪ {[ "file_id" := file_id; "timestamp" := ts;
                    "event_type" := "analysis_progress" ]}.
Proof.
  unfold publish_analysis_progress. destruct (negb _); [by left|].
  destruct o; [apply xadd_elem|by left].
Qed.

Lemma publish_workflow_elem workflow_id data ts o m log key (e : entry) :
  e ∈ stream_of (publish_workflow_progress workflow_id data ts o m log) key →
  e ∈ stream_of log key
  ∨ e.2 = data ∪ {[ "workflow_id" := workflow_id; "timestamp" := ts;
                    "event_type" := "workflow_progress" ]}.
Proof.
  unfold publish_workflow_progress. destruct (negb _); [by left|].
  destruct o; [apply xadd_elem|by left].
Qed.

(** No user stream ever shows what an upload publishes: the two events
    of [upload_file] carry no [user_id], the workflow id starts with
    [analyze-] and the file id is a uuid, so [_is_user_event] is false of
    every entry an upload adds to Redis, for every user. *)
Theorem upload_events_pass_no_user_filter (env : upload_env)
    (file : UploadFile) (user_id : string) (ei gs dl : bool)
    (atype : string) (m : StreamManager) (log : redis_log)
    (viewer key : string) (e : entry) :
  has_char "/" (ue_file_uuid env) = false →
  has_char "_" (ue_file_uuid env) = false →
  String.prefix "user:" (ue_file_uuid env) = false →
  e ∈ stream_of
        (uo_log (upload_file env file user_id ei gs dl atype m log)) key →
  e ∈ stream_of log key ∨ _is_user_event e.2 viewer = false.
Proof.
  intros Hslash Hunder Hprefix. unfold upload_file.
  destruct (uf_filename file) as [filename|]; [|by left].
  destruct (bool_decide (filename = "")); [by left|].
  destruct (match uf_size file with Some _ => _ | None => _ end); [by left|].
  rewrite (file_id_round_trip_aux (ue_file_uuid env) (ue_date env) user_id
             filename Hslash Hunder).
  unfold upload_to_s3, start_analysis_workflow, upload_failed.
  destruct (ue_put_object env); [by left|].
  set (url := "https://" +:+ _).
  assert (
    e ∈ stream_of (if redis_client m
                   then publish_analysis_progress (ue_file_uuid env)
                          {[ "step" := "uploaded"; "progress" := "25";
                             "message" := "File uploaded to S3 successfully";
                             "s3_url" := url ]}
                          (ue_now env) (ue_xadd_analysis env) m log
                   else log) key →
    e ∈ stream_of log key ∨ _is_user_event e.2 viewer = false) as Hfirst.
  { destruct (redis_client m); [|by left].
    intros [Hin|Heq]%publish_analysis_elem; [by left|right].
    rewrite Heq. by apply upload_analysis_event_filtered. }
  destruct (negb (ue_temporal_client env)); [by apply Hfirst|].
  destruct (ue_start_workflow env); [by apply Hfirst|].
  cbn [uo_log]. destruct (redis_client m) eqn:Hredis; [|by left].
  intros [Hin|Heq]%publish_workflow_elem.
  - by apply Hfirst.
  - right. rewrite Heq. by apply upload_workflow_event_filtered.
Qed.

Lemma upload_events_pass_no_user_filter_witness :
  let env := {| ue_bucket := "pip"; ue_region := "us-east-1";
                ue_file_uuid := "3f2b8c1e-9a47-4d2b-8f0e-5c6d7e8f9a0b";
                ue_workflow_uuid := "77aa";
                ue_date := "2025/01/31"; ue_now := "t0";
                ue_put_object := None; ue_temporal_client := true;
                ue_start_workflow := None;
                ue_xadd_analysis := XaddOk 5 0; ue_xadd_workflow := XaddOk 6 0;
                ue_str_http := λ _ detail, detail |} in
  let file := {| uf_filename := Some "a.pdf"; uf_size := Some 10%N;
                 uf_content_type := Some "application/pdf" |} in
  let out := upload_file env file "u1" false true true "auto"
               (w_mgr (boot true true)) ∅ in
  length (stream_of (uo_log out) "pip-ai:analysis:progress") = 1
  ∧ Forall (λ e : entry, _is_user_event e.2 "u1" = false)
      (stream_of (uo_log out) "pip-ai:analysis:progress").
Proof.
  intros env file out. split; [vm_compute; reflexivity|].
  apply Forall_forall. intros e He.
  destruct (upload_events_pass_no_user_filter env file "u1" false true true
              "auto" (w_mgr (boot true true)) ∅ "u1"
              "pip-ai:analysis:progress" e eq_refl eq_refl eq_refl He)
    as [Hin|Hf]; [|exact Hf].
  unfold stream_of in Hin. rewrite lookup_empty in Hin.
  by apply elem_of_nil in Hin.
Defined.

(** * Keys and first events *)

(** The per-file stream never reads what [publish_analysis_progress]
    writes, whatever the file id; the per-workflow stream reads what
    [publish_workflow_progress] writes for the one workflow id
    [pip-ai:workflow] and for no other, so for none of the ids
    [analyze-...] the upload API hands out. *)
Theorem publisher_and_stream_keys :
  (∀ file_id, STREAM_KEYS_at "file_analysis" ≠ stream_key File file_id)
  ∧ (∀ workflow_id,
       STREAM_KEYS_at "workflow_progress" = stream_key Workflow workflow_id
       ↔ workflow_id = "pip-ai:workflow")
  ∧ (∀ uuid,
       STREAM_KEYS_at "workflow_progress"
       ≠ stream_key Workflow ("analyze-" +:+ uuid)).
Proof.
  assert (∀ workflow_id,
            STREAM_KEYS_at "workflow_progress" = stream_key Workflow workflow_id
            ↔ workflow_id = "pip-ai:workflow") as Hw.
  { intros workflow_id. split; [|by intros ->].
    change (STREAM_KEYS_at "workflow_progress")
      with ("pip-ai:workflow" +:+ ":progress").
    simpl. intros H. symmetry. by eapply string_app_inv_tail. }
  split_and!; [|exact Hw|].
  - intros file_id. unfold STREAM_KEYS_at. simpl. intros H.
    repeat (destruct file_id as [|? file_id]; simpl in H;
            [discriminate H | injection H as _ H]).
    destruct file_id; discriminate H.
  - intros uuid H. apply Hw in H. discriminate H.
Qed.

(** With a Redis client, the first thing a generator does is yield
    [connected], stamped with its own id; nothing is read and nothing
    else is yielded before. *)
Theorem stream_opens_with_connected (w : world) (i : nat) (g : gen) :
  reachable w →
  w_gens w !! i = Some g →
  redis_client (w_mgr w) = true →
  ∃ ts, head (g_trace g) = Some (Emit (connected_msg (g_kind g) (g_arg g) ts))
    ∧ head (output g) = Some (connected_msg (g_kind g) (g_arg g) ts).
Proof.
  intros Hw. revert i g. revert w Hw.
  apply (reachable_ind (λ w, ∀ i g, w_gens w !! i = Some g →
    redis_client (w_mgr w) = true →
    ∃ ts, head (g_trace g) = Some (Emit (connected_msg (g_kind g) (g_arg g) ts))
      ∧ head (output g) = Some (connected_msg (g_kind g) (g_arg g) ts))).
  - intros w [Hg _] i g Hi. rewrite Hg in Hi. by rewrite lookup_nil in Hi.
  - intros w a _ IH i g Hi. destruct (step_clients w a) as [-> _].
    intros Hredis.
    destruct a as [| | |k arg ts|j ts r q|]; simpl in Hi;
      try by eapply IH.
    + apply lookup_app_Some in Hi as [Hi|[_ Hi]]; [by eapply IH|].
      apply list_lookup_singleton_Some in Hi as [_ <-].
      unfold start. rewrite Hredis. simpl. by exists ts.
    + destruct (w_gens w !! j) as [gj|] eqn:Hj; [|by eapply IH].
      destruct (g_pc gj) eqn:Hpj; [|by eapply IH]. simpl in Hi.
      destruct (decide (j = i)) as [->|Hne];
        [|rewrite list_lookup_insert_ne in Hi by done; by eapply IH].
      rewrite list_lookup_insert_eq in Hi by by eapply lookup_lt_Some.
      injection Hi as <-.
      destruct (IH i gj Hj Hredis) as (ts0 & Ht & Ho).
      destruct (loop_turn_shape ts r q (w_log w) (w_mgr w) gj)
        as (-> & -> & tr & Htr & _).
      exists ts0. unfold output in *. rewrite Htr.
      destruct (g_trace gj) as [|ef tr0]; [done|]. simpl in Ht.
      injection Ht as ->. done.
Qed.

Lemma stream_opens_with_connected_witness :
  let w := run (boot true true)
    [ Attach File "abc" "t0"; Xadd "abc:analysis" {[ "step" := "ocr" ]} 5;
      Resume 0 "t1" ReadOk QNotFound ] in
  ∃ g ts, w_gens w !! 0 = Some g
    ∧ head (output g) = Some (connected_msg File "abc" ts).
Proof.
  intros w.
  destruct (w_gens w !! 0) as [g|] eqn:Hg; [|vm_compute in Hg; discriminate Hg].
  destruct (stream_opens_with_connected w 0 g (reachable_boot _ _ _) Hg
              eq_refl) as (ts & _ & Ho).
  assert (Eg := Hg). vm_compute in Eg. injection Eg as Eg.
  exists g, ts. split; [done|]. rewrite Ho. by rewrite <- Eg.
Defined.
